(** * ElectrumX server front-end: block prefetch cache and daemon RPC client

    A shallow embedding of [server/server.py]: the retrying JSON-RPC client
    ([RPC.daemon], [RPC.rpc_single], [RPC.rpc_multi]) and the block cache
    ([BlockCache]) with its producer ([catch_up] / [maybe_prefill]) and
    consumer ([process_cache]) coroutines.

    Python integers are unbounded, so they are [Z]; [//] is floor division,
    which is [Z.div], except that a zero divisor raises [ZeroDivisionError].
    Coroutines are cut at their [await] points: every piece of code between
    two suspension points is one atomic transition. *)

From Stdlib Require Import String.
From Stdlib Require Import ZArith List Bool Lia.
Import ListNotations.
Open Scope string_scope.
Open Scope list_scope.
Open Scope Z_scope.
Set Warnings "-register-all".

(** ** Python values and exceptions *)

Module Py.

Inductive exn : Type :=
| AttributeError
| KeyError
| TypeError
| ZeroDivisionError
| ValueError
| NonException (name : string).

Inductive result (A : Type) : Type :=
| Ok (a : A)
| Raise (e : exn).
Arguments Ok {A} a.
Arguments Raise {A} e.

Definition bind {A B} (m : result A) (k : A -> result B) : result B :=
  match m with
  | Ok a => k a
  | Raise e => Raise e
  end.

Fixpoint mapM {A B} (f : A -> result B) (l : list A) : result (list B) :=
  match l with
  | [] => Ok []
  | a :: l' =>
      bind (f a) (fun b => bind (mapM f l') (fun bs => Ok (b :: bs)))
  end.

(** What [json.loads] / [resp.json()] produces.  Numbers are the integer
    ones; a dict is its list of items, keys distinct. *)
Inductive value : Type :=
| VNone
| VBool (b : bool)
| VInt (z : Z)
| VStr (s : string)
| VList (l : list value)
| VDict (items : list (string * value)).

(** [bool(v)] *)
Definition truthy (v : value) : bool :=
  match v with
  | VNone => false
  | VBool b => b
  | VInt z => negb (z =? 0)
  | VStr s => negb (String.eqb s "")
  | VList l => match l with [] => false | _ => true end
  | VDict items => match items with [] => false | _ => true end
  end.

Fixpoint lookup (k : string) (items : list (string * value)) : option value :=
  match items with
  | [] => None
  | (k', v) :: items' => if String.eqb k k' then Some v else lookup k items'
  end.

(** [v[k]] for a string key [k] *)
Definition getitem (v : value) (k : string) : result value :=
  match v with
  | VDict items =>
      match lookup k items with
      | Some x => Ok x
      | None => Raise KeyError
      end
  | _ => Raise TypeError
  end.

(** [v.get(k)]: only a dict has the method *)
Definition get (v : value) (k : string) : result value :=
  match v with
  | VDict items =>
      match lookup k items with
      | Some x => Ok x
      | None => Ok VNone
      end
  | _ => Raise AttributeError
  end.

Fixpoint chars (s : string) : list value :=
  match s with
  | EmptyString => []
  | String c s' => VStr (String c EmptyString) :: chars s'
  end.

(** [for x in v] *)
Definition iter (v : value) : result (list value) :=
  match v with
  | VList l => Ok l
  | VDict items => Ok (map (fun kv => VStr (fst kv)) items)
  | VStr s => Ok (chars s)
  | _ => Raise TypeError
  end.

(** [v == n] for an integer literal [n] other than 0 and 1 *)
Definition eq_int (v : value) (n : Z) : bool :=
  match v with
  | VInt z => z =? n
  | _ => false
  end.

(** [any(l)] *)
Definition any (l : list value) : bool := existsb truthy l.

(** [a // b] *)
Definition floordiv (a b : Z) : result Z :=
  if b =? 0 then Raise ZeroDivisionError else Ok (a / b).

(** [range(a, b)] *)
Definition range (a b : Z) : list Z :=
  map (fun i => a + Z.of_nat i) (seq 0 (Z.to_nat (b - a))).

(** [sum(l)] *)
Definition sum (l : list Z) : Z := fold_right Z.add 0 l.

(** [len(l)] *)
Definition len {A} (l : list A) : Z := Z.of_nat (length l).

End Py.

Notation "x <- m ;; k" := (Py.bind m (fun x => k))
  (at level 61, m at next level, right associativity).

(** ** The RPC client *)

Module RPC.
Import Py.

(** One HTTP attempt of [daemon]: [resp.json()] came back; or something in
    the [try] block raised an [Exception], [e] being its [str]; or it raised
    what is no [Exception] ([KeyboardInterrupt], [SystemExit], ...), which
    [except Exception] does not catch. *)
Inductive attempt : Type :=
| Responded (v : value)
| Failed (e : string)
| Interrupted (name : string).

Inductive level : Type := Info | Warning | Error.

(** What the client does to the outside world. *)
Inductive io : Type :=
| Post (payload : value)
| Log (lvl : level) (msg : string)
| Sleep (secs : Z).

(** A call either returns, raises, or is still inside its loop when the
    script of attempts runs out. *)
Inductive outcome (A : Type) : Type :=
| Returned (a : A)
| Raised (e : exn)
| Pending.
Arguments Returned {A} a.
Arguments Raised {A} e.
Arguments Pending {A}.

Record run (A : Type) : Type := mkRun {
  out : outcome A;
  trace : list io;
  rest : list attempt
}.
Arguments mkRun {A} out trace rest.
Arguments out {A} r.
Arguments trace {A} r.
Arguments rest {A} r.

(** What one failed attempt of [daemon] adds to the trace. *)
Definition failed_attempt (payload : value) (e : string) : list io :=
  [Post payload; Log Error (String.append "aiohttp error: " e);
   Log Info "sleeping 1 second and trying again..."; Sleep 1].

(** [RPC.daemon] *)
Fixpoint daemon (payload : value) (net : list attempt) : run value :=
  match net with
  | [] => mkRun Pending [] []
  | Responded v :: net' => mkRun (Returned v) [Post payload] net'
  | Failed e :: net' =>
      let r := daemon payload net' in
      mkRun (out r) (failed_attempt payload e ++ trace r) (rest r)
  | Interrupted name :: net' =>
      mkRun (Raised (NonException name)) [Post payload] net'
  end.

(** What one pass through the body of a retry loop decides. *)
Inductive verdict (A : Type) : Type :=
| Return (a : A)
| Retry (secs : Z).
Arguments Return {A} a.
Arguments Retry {A} secs.

(** The [for err in errs: ... break / else: ...] of [rpc_multi]. *)
Fixpoint scan_errs (errs : list value) : result Z :=
  match errs with
  | [] => Ok 0
  | err :: errs' =>
      code <- get err "code";;
      if eq_int code (-28) then Ok 10 else scan_errs errs'
  end.

(** The body of the [while True] of [rpc_multi], after the [await]. *)
Definition rpc_multi_body (dresults : value) : result (verdict (list value)) :=
  ds <- iter dresults;;
  errs <- mapM (fun dresult => getitem dresult "error") ds;;
  if negb (any errs) then
    results <- mapM (fun dresult => getitem dresult "result") ds;;
    Ok (Return results)
  else
    secs <- scan_errs errs;;
    Ok (Retry secs).

(** The body of the [while True] of [rpc_single], after the [await]. *)
Definition rpc_single_body (dresult : value) : result (verdict value) :=
  err <- getitem dresult "error";;
  if negb (truthy err) then
    r <- getitem dresult "result";;
    Ok (Return r)
  else
    code <- get err "code";;
    if eq_int code (-28) then Ok (Retry 10) else Ok (Retry 0).

Definition retry_log (many : bool) (secs : Z) : list io :=
  [if secs =? 10 then Log Warning "daemon still warming up..."
   else Log Error (if many then "daemon returned errors: {}"
                   else "daemon returned error: {}");
   Log Info "sleeping {:d} seconds and trying again...";
   Sleep secs].

(** The shared shape of the two retry loops; [fuel] bounds the number of
    passes, and a pass uses up at least one attempt of the script. *)
Fixpoint retry_loop {A} (many : bool) (body : value -> result (verdict A))
         (fuel : nat) (payload : value) (net : list attempt) : run A :=
  match fuel with
  | O => mkRun Pending [] net
  | S fuel' =>
      let d := daemon payload net in
      match out d with
      | Pending => mkRun Pending (trace d) (rest d)
      | Raised e => mkRun (Raised e) (trace d) (rest d)
      | Returned reply =>
          match body reply with
          | Raise e => mkRun (Raised e) (trace d) (rest d)
          | Ok (Return a) => mkRun (Returned a) (trace d) (rest d)
          | Ok (Retry secs) =>
              let r := retry_loop many body fuel' payload (rest d) in
              mkRun (out r) (trace d ++ retry_log many secs ++ trace r) (rest r)
          end
      end
  end.

Definition multi_payload (method : string) (param_lists : list value) : value :=
  VList (map (fun param_list =>
                VDict [("method", VStr method); ("params", param_list)])
             param_lists).

(** [RPC.rpc_multi] *)
Definition rpc_multi (method : string) (param_lists : list value)
           (net : list attempt) : run (list value) :=
  retry_loop true rpc_multi_body (S (length net))
             (multi_payload method param_lists) net.

Definition single_payload (method : string) (params : value) : value :=
  if truthy params then VDict [("method", VStr method); ("params", params)]
  else VDict [("method", VStr method)].

(** [RPC.rpc_single]; [params=None] is [VNone] *)
Definition rpc_single (method : string) (params : value)
           (net : list attempt) : run value :=
  retry_loop false rpc_single_body (S (length net))
             (single_payload method params) net.

(** A reply element as the daemon builds it. *)
Definition reply_ok (r : value) : value :=
  VDict [("result", r); ("error", VNone); ("id", VNone)].
Definition reply_err (code : Z) (msg : string) : value :=
  VDict [("result", VNone);
         ("error", VDict [("code", VInt code); ("message", VStr msg)]);
         ("id", VNone)].

(** A batch of five where the third element carries the warm-up code and
    the other four succeed. *)
Definition mixed_reply : value :=
  VList [reply_ok (VStr "h1"); reply_ok (VStr "h2");
         reply_err (-28) "Loading block index...";
         reply_ok (VStr "h4"); reply_ok (VStr "h5")].

Definition five_heights : list value :=
  map (fun h => VList [VInt h]) [1; 2; 3; 4; 5].

(** An attempt that [daemon] deals with itself: a reply, or an
    [Exception]. *)
Definition caught (a : attempt) : Prop :=
  match a with
  | Interrupted _ => False
  | _ => True
  end.

(** A reply element with result [r] and error [err]. *)
Definition reply (r err : value) : value :=
  VDict [("result", r); ("error", err); ("id", VNone)].

(** A reply element given as the pair of its result and its error. *)
Definition element (p : value * value) : value := reply (fst p) (snd p).

(** The seconds a trace spends in [asyncio.sleep]. *)
Fixpoint slept (tr : list io) : Z :=
  match tr with
  | [] => 0
  | Sleep secs :: tr' => secs + slept tr'
  | _ :: tr' => slept tr'
  end.

(** The payloads a trace posts, in order. *)
Fixpoint posts (tr : list io) : list value :=
  match tr with
  | [] => []
  | Post payload :: tr' => payload :: posts tr'
  | _ :: tr' => posts tr'
  end.

(** The seconds an attempt costs when it sends a retry loop round again:
    a failed attempt costs the transport's second, a reply costs what the
    loop body decides; [None] when the attempt ends the loop. *)
Definition goes_round {A} (body : value -> result (verdict A)) (a : attempt)
  : option Z :=
  match a with
  | Failed _ => Some 1
  | Responded v =>
      match body v with
      | Ok (Retry secs) => Some secs
      | _ => None
      end
  | Interrupted _ => None
  end.

Definition cost {A} (body : value -> result (verdict A)) (a : attempt) : Z :=
  match goes_round body a with
  | Some secs => secs
  | None => 0
  end.

(** What can hold up a single call: a transport failure, or an error
    object with a code. *)
Inductive setback : Type :=
| Transport (e : string)
| RpcError (code : Z) (msg : string).

Definition single_attempt (sb : setback) : attempt :=
  match sb with
  | Transport e => Failed e
  | RpcError code msg => Responded (reply_err code msg)
  end.

(** What can hold up a batch call when every element of the reply carries
    an error object: a transport failure, or the codes of the elements. *)
Inductive batch_setback : Type :=
| BatchTransport (e : string)
| BatchErrors (code : Z) (codes : list Z) (msg : string).

Definition batch_attempt (sb : batch_setback) : attempt :=
  match sb with
  | BatchTransport e => Failed e
  | BatchErrors code codes msg =>
      Responded (VList (map (fun c => reply_err c msg) (code :: codes)))
  end.

Definition warming_up (code : Z) : bool := code =? -28.

Definition setback_secs (sb : setback) : Z :=
  match sb with
  | Transport _ => 1
  | RpcError code _ => if warming_up code then 10 else 0
  end.

Definition batch_setback_secs (sb : batch_setback) : Z :=
  match sb with
  | BatchTransport _ => 1
  | BatchErrors code codes _ =>
      if existsb warming_up (code :: codes) then 10 else 0
  end.

(** An error field that is an object whose code is not the warm-up code. *)
Definition calm (err : value) : Prop :=
  exists items,
    err = VDict items /\
    match lookup "code" items with
    | Some code => eq_int code (-28) = false
    | None => True
    end.

(** An error field that is an object whose code is the warm-up code. *)
Definition warm (err : value) : Prop :=
  exists items, err = VDict items /\ lookup "code" items = Some (VInt (-28)).

(** An error field that is no object: [None], a string, a number, a list. *)
Definition no_object (err : value) : Prop :=
  match err with
  | VDict _ => False
  | _ => True
  end.

End RPC.

(** ** The block cache *)

Module BlockCache.
Import Py.

(** A raw block, as [memoryview(bytes.fromhex(block))] holds it.  The
    replies of the daemon are taken here already decoded. *)
Definition Block : Type := list Byte.byte.
Definition Hash : Type := string.

(** The fields of [BlockCache] that the coroutines read and write.  A
    buffered block carries the height it was requested at; the code keeps
    the raw blocks only, which is [map snd] of [blocks]. *)
Record t : Type := mk {
  stop : bool;
  cache_limit : Z;
  daemon_height : Z;
  fetched_height : Z;
  blocks : list (Z * Block);
  recent_sizes : list Z;
  ave_size : Z
}.

Definition set_stop (b : bool) (c : t) : t :=
  mk b (cache_limit c) (daemon_height c) (fetched_height c) (blocks c)
     (recent_sizes c) (ave_size c).
Definition set_daemon_height (h : Z) (c : t) : t :=
  mk (stop c) (cache_limit c) h (fetched_height c) (blocks c)
     (recent_sizes c) (ave_size c).
Definition set_fetched_height (h : Z) (c : t) : t :=
  mk (stop c) (cache_limit c) (daemon_height c) h (blocks c)
     (recent_sizes c) (ave_size c).
Definition set_blocks (bs : list (Z * Block)) (c : t) : t :=
  mk (stop c) (cache_limit c) (daemon_height c) (fetched_height c) bs
     (recent_sizes c) (ave_size c).
Definition set_recent_sizes (l : list Z) (c : t) : t :=
  mk (stop c) (cache_limit c) (daemon_height c) (fetched_height c) (blocks c)
     l (ave_size c).
Definition set_ave_size (a : Z) (c : t) : t :=
  mk (stop c) (cache_limit c) (daemon_height c) (fetched_height c) (blocks c)
     (recent_sizes c) a.

(** [BlockCache.__init__], with [db.db_height] as argument *)
Definition init (db_height : Z) : t := mk false 10 0 db_height [] [] 0.

(** [BlockCache.on_signal] *)
Definition on_signal (self : t) : t := set_stop true (set_blocks [] self).

(** [BlockCache.cache_used] *)
Definition cache_used (self : t) : Z :=
  sum (map (fun hb => len (snd hb)) (blocks self)).

(** [BlockCache.prefill_count] *)
Definition prefill_count (self : t) (room : Z) : Z :=
  let count := 0 in
  let count := if negb (ave_size self =? 0) then room / ave_size self
               else count in
  Z.max count 10.

(** The local [cache_limit] of [maybe_prefill], in bytes *)
Definition limit_bytes (self : t) : Z := cache_limit self * 1024 * 1024.

(** The local [count] of [maybe_prefill], once [getblockcount] answered
    [height] *)
Definition fetch_count (self : t) (height : Z) : Z :=
  let max_count := Z.min (height - fetched_height self) 4000 in
  Z.min max_count (prefill_count self (limit_bytes self)).

(** The size bookkeeping that ends a round of [maybe_prefill]: the window
    is written before the division, so it stays written when the division
    raises. *)
Definition update_sizes (self : t) (fetched : list Block) : t * option exn :=
  let sizes := map (fun block => len block) fetched in
  let recent := recent_sizes self ++ sizes in
  let excess := len recent - 50 in
  let recent := if excess >? 0 then skipn (Z.to_nat excess) recent
                else recent in
  let self := set_recent_sizes recent self in
  match floordiv (sum recent) (len recent) with
  | Ok ave => (set_ave_size ave self, None)
  | Raise e => (self, Some e)
  end.

(** The [i]-th block of a batch answers the [i]-th height asked for. *)
Fixpoint tag (height : Z) (fetched : list Block) : list (Z * Block) :=
  match fetched with
  | [] => []
  | b :: fetched' => (height, b) :: tag (height + 1) fetched'
  end.

(** [l.pop()] on a non-empty list: what is left, and the last element *)
Definition pop {A} (l : list A) : option (list A * A) :=
  match rev l with
  | [] => None
  | x :: r => Some (rev r, x)
  end.

(** Where the producer coroutine ([catch_up] running [maybe_prefill]) is
    suspended. *)
Inductive producer : Type :=
| PReady
| PAwaitCount
| PAwaitHashes (count first : Z)
| PAwaitBlocks (count first : Z) (hashes : list Hash)
| PDone
| PCrashed (e : exn).

(** Where the consumer coroutine ([process_cache]) is suspended. *)
Inductive consumer : Type :=
| CReady
| CSleep1
| CSleep0
| CDone.

(** The calls that leave the cache, oldest last. *)
Inductive effect : Type :=
| GetBlockCount
| GetBlockHash (heights : list Z)
| GetBlock (hashes : list Hash)
| ProcessBlock (height : Z) (block : Block)
| Flush.

Record system : Type := mkSystem {
  cache : t;
  prod : producer;
  cons : consumer;
  log : list effect
}.

Definition with_cache (c : t) (s : system) : system :=
  mkSystem c (prod s) (cons s) (log s).
Definition with_prod (p : producer) (s : system) : system :=
  mkSystem (cache s) p (cons s) (log s).
Definition with_cons (k : consumer) (s : system) : system :=
  mkSystem (cache s) (prod s) k (log s).
Definition emit (e : effect) (s : system) : system :=
  mkSystem (cache s) (prod s) (cons s) (e :: log s).

Definition start (db_height : Z) : system :=
  mkSystem (init db_height) PReady CReady [].

(** *** The producer: [maybe_prefill] inside [catch_up] *)

(** The top of the [while True]: the stop test, the occupancy test, and
    the [getblockcount] call.  Returning [False] ends [catch_up];
    returning [True] puts it into its [sleep(1)]. *)
Definition loop_top (s : system) : system :=
  if stop (cache s) then with_prod PDone s
  else if cache_used (cache s) >? limit_bytes (cache s) then with_prod PReady s
  else with_prod PAwaitCount (emit GetBlockCount s).

(** From the answer of [getblockcount] to the [getblockhash] batch. *)
Definition after_count (s : system) (height : Z) : system :=
  let c := set_daemon_height height (cache s) in
  let count := fetch_count c height in
  let s := with_cache c s in
  if (count =? 0) || stop c then with_prod PDone s
  else
    let first := fetched_height c + 1 in
    let heights := range first (first + count) in
    with_prod (PAwaitHashes count first) (emit (GetBlockHash heights) s).

(** From the answer of the [getblockhash] batch to the [getblock] batch. *)
Definition after_hashes (s : system) (count first : Z) (hashes : list Hash)
  : system :=
  if stop (cache s) then with_prod PDone s
  else with_prod (PAwaitBlocks count first hashes) (emit (GetBlock hashes) s).

(** From the answer of the [getblock] batch to the next suspension. *)
Definition after_blocks (s : system) (count first : Z) (fetched : list Block)
  : system :=
  let c := set_fetched_height (fetched_height (cache s) + count) (cache s) in
  if stop c then with_prod PDone (with_cache c s)
  else
    let c := set_blocks (rev (tag first fetched) ++ blocks c) c in
    match update_sizes c fetched with
    | (c, Some e) => with_prod (PCrashed e) (with_cache c s)
    | (c, None) => loop_top (with_cache c s)
    end.

(** From the answer of the [getblock] batch to [bytes.fromhex] raising on
    one of its elements: [fetched_height] has moved and the stop flag has
    been looked at by then. *)
Definition after_bad_blocks (s : system) (count : Z) : system :=
  let c := set_fetched_height (fetched_height (cache s) + count) (cache s) in
  if stop c then with_prod PDone (with_cache c s)
  else with_prod (PCrashed ValueError) (with_cache c s).

(** *** The consumer: [process_cache] *)

(** The test of [while not self.stop] and what follows it. *)
Definition outer_loop (s : system) : system :=
  if stop (cache s) then with_cons CDone (emit Flush s)
  else with_cons CSleep1 s.

(** The test of [while self.blocks] and what follows it. *)
Definition inner_loop (s : system) : system :=
  match pop (blocks (cache s)) with
  | Some (remaining, (height, block)) =>
      with_cons CSleep0
        (emit (ProcessBlock height block)
           (with_cache (set_blocks remaining (cache s)) s))
  | None => outer_loop s
  end.

(** *** Scheduling *)

(** What can happen next: a signal is delivered; or a suspended coroutine
    is resumed with the value its [await] yields, [BlocksReply] being a batch
    of blocks that are all hex; or the RPC call the producer awaits raises;
    or the block batch comes back with an element that is not hex. *)
Inductive event : Type :=
| Signal
| ProducerWake
| CountReply (height : Z)
| HashesReply (hashes : list Hash)
| BlocksReply (fetched : list Block)
| ConsumerWake
| Raises (e : exn)
| BlocksNotHex.

Definition step (s : system) (ev : event) : option system :=
  match ev with
  | Signal => Some (with_cache (on_signal (cache s)) s)
  | ProducerWake =>
      match prod s with
      | PReady => Some (loop_top s)
      | _ => None
      end
  | CountReply height =>
      match prod s with
      | PAwaitCount => Some (after_count s height)
      | _ => None
      end
  | HashesReply hashes =>
      match prod s with
      | PAwaitHashes count first => Some (after_hashes s count first hashes)
      | _ => None
      end
  | BlocksReply fetched =>
      match prod s with
      | PAwaitBlocks count first _ => Some (after_blocks s count first fetched)
      | _ => None
      end
  | ConsumerWake =>
      match cons s with
      | CReady => Some (outer_loop s)
      | CSleep1 | CSleep0 => Some (inner_loop s)
      | CDone => None
      end
  | Raises e =>
      match prod s with
      | PAwaitCount | PAwaitHashes _ _ | PAwaitBlocks _ _ _ =>
          Some (with_prod (PCrashed e) s)
      | _ => None
      end
  | BlocksNotHex =>
      match prod s with
      | PAwaitBlocks count _ _ => Some (after_bad_blocks s count)
      | _ => None
      end
  end.

Fixpoint exec (s : system) (evs : list event) : option system :=
  match evs with
  | [] => Some s
  | ev :: evs' =>
      match step s ev with
      | Some s' => exec s' evs'
      | None => None
      end
  end.

Definition reachable (db_height : Z) (s : system) : Prop :=
  exists evs, exec (start db_height) evs = Some s.

(** The daemon answers a batch with one element per request, and a block
    batch in hex. *)
Definition answers_batch (s : system) (ev : event) : Prop :=
  match ev, prod s with
  | HashesReply hashes, PAwaitHashes count first =>
      length hashes = length (range first (first + count))
  | BlocksReply fetched, PAwaitBlocks _ _ hashes =>
      length fetched = length hashes
  | BlocksNotHex, _ => False
  | _, _ => True
  end.

(** The daemon's chain is at least as high as what was fetched from it. *)
Definition tip_not_below (s : system) (ev : event) : Prop :=
  match ev with
  | CountReply height => fetched_height (cache s) <= height
  | _ => True
  end.

(** *** Observations *)

Definition heights (l : list (Z * Block)) : list Z := map fst l.

(** [l] runs down by one at each position. *)
Fixpoint descending (l : list Z) : Prop :=
  match l with
  | [] => True
  | h :: l' =>
      match l' with
      | [] => True
      | h' :: _ => h = h' + 1
      end /\ descending l'
  end.

(** The heights handed to [db.process_block], newest first. *)
Fixpoint processed (l : list effect) : list Z :=
  match l with
  | [] => []
  | ProcessBlock height _ :: l' => height :: processed l'
  | _ :: l' => processed l'
  end.

Fixpoint flushes (l : list effect) : nat :=
  match l with
  | [] => O
  | Flush :: l' => S (flushes l')
  | _ :: l' => flushes l'
  end.

Definition total_bytes (fetched : list Block) : Z :=
  sum (map (fun block => len block) fetched).



(** The last [n] elements of [l]. *)
Definition lastn {A} (n : nat) (l : list A) : list A :=
  skipn (length l - n) l.

(** The fetch count as the specification words it: the room handed to
    [prefill_count] is the byte limit less the current occupancy. *)
Definition spec_fetch_count (self : t) (height : Z) : Z :=
  let remaining_room := limit_bytes self - cache_used self in
  Z.min (Z.min (height - fetched_height self) 4000)
        (prefill_count self remaining_room).

Definition zeros (n : nat) : Block := repeat Byte.x00 n.

(** The statement that [fetched_height] has moved on by [count] as soon as
    the hash batch is back, while the block batch is still out. *)
Definition advanced_after_hashes : Prop :=
  forall db_height s count first hashes s',
    reachable db_height s ->
    prod s = PAwaitHashes count first ->
    stop (cache s) = false ->
    step s (HashesReply hashes) = Some s' ->
    fetched_height (cache s') = fetched_height (cache s) + count.

(** A fresh cache over a database at [db_height], just after the first
    [getblockcount] went out. *)
Definition awaiting_count (db_height : Z) : system :=
  mkSystem (init db_height) PAwaitCount CReady [GetBlockCount].

(** One round that fetched block 1, of 4096 bytes, which is still
    buffered when the next [getblockcount] goes out. *)
Definition one_block_round : list event :=
  [ProducerWake; CountReply 1; HashesReply ["00"]; BlocksReply [zeros 4096]].

Definition one_block_buffered : system :=
  mkSystem (mk false 10 1 1 [(1, zeros 4096)] [4096] 4096) PAwaitCount CReady
           [GetBlockCount; GetBlock ["00"]; GetBlockHash [1]; GetBlockCount].

(** The daemon reports tip 2, then tip 1, then tip 3; every batch is
    answered in full; the consumer has not run yet. *)
Definition tip_drop : list event :=
  [ProducerWake;
   CountReply 2; HashesReply ["h1"; "h2"]; BlocksReply [zeros 1; zeros 2];
   CountReply 1; HashesReply []; BlocksReply [];
   CountReply 3; HashesReply ["h2'"; "h3'"]; BlocksReply [zeros 3; zeros 4]].

(** The consumer then runs until the buffer is empty. *)
Definition drain : list event :=
  [ConsumerWake; ConsumerWake; ConsumerWake; ConsumerWake; ConsumerWake].

(** *** Invariants of the reachable states *)

(** The producer is inside a round, between its occupancy test and the
    prepending of the batch. *)
Definition in_round (p : producer) : Prop :=
  match p with
  | PAwaitCount | PAwaitHashes _ _ | PAwaitBlocks _ _ _ => True
  | _ => False
  end.

(** The bytes of a batch of blocks, block by block. *)
Fixpoint byte_size (fetched : list Block) : Z :=
  match fetched with
  | [] => 0
  | block :: fetched' => Z.of_nat (length block) + byte_size fetched'
  end.

(** The occupancy as the specification words it: the byte lengths of the
    buffered blocks, added up. *)
Definition buffered_bytes (s : system) : Z :=
  byte_size (map snd (blocks (cache s))).

(** The batch of the last [BlocksReply] of a run; empty when there is
    none. *)
Definition last_batch (evs : list event) : list Block :=
  fold_left (fun batch ev =>
               match ev with
               | BlocksReply fetched => fetched
               | _ => batch
               end) evs [].

(** Occupancy is within the limit during a round, and otherwise within
    the limit plus the bytes of the last batch that came back. *)
Definition bounded (seen : list event) (s : system) : Prop :=
  cache_limit (cache s) = 10 /\
  (in_round (prod s) -> cache_used (cache s) <= limit_bytes (cache s)) /\
  cache_used (cache s) <= limit_bytes (cache s) + total_bytes (last_batch seen).

(** A block of one byte more than the cache limit of 10 MiB. *)
Definition big_block : Block := zeros (Z.to_nat 10485761).

(** A round on a fresh cache over an empty database that fetches [block]
    as block 1, and where it leaves the system when [block] alone is more
    than the cache limit: the producer back in [catch_up], waiting. *)
Definition round_of (block : Block) : list event :=
  [ProducerWake; CountReply 1; HashesReply ["00"]; BlocksReply [block]].

Definition waiting_on (block : Block) : system :=
  mkSystem (mk false 10 1 1 [(1, block)] [len block] (len block))
           PReady CReady [GetBlock ["00"]; GetBlockHash [1]; GetBlockCount].

(** Once stopped the buffer is empty; the log holds one [Flush] when the
    consumer is done and none before; the consumer is done only when
    stopped. *)
Definition shut_down_safely (s : system) : Prop :=
  (stop (cache s) = true -> blocks (cache s) = []) /\
  flushes (log s) = match cons s with CDone => 1%nat | _ => 0%nat end /\
  (cons s = CDone -> stop (cache s) = true).

(** The window is in use: not empty, at most 50 long, and averaged. *)
Definition tracked (self : t) : Prop :=
  recent_sizes self <> [] /\
  (length (recent_sizes self) <= 50)%nat /\
  ave_size self = sum (recent_sizes self) / len (recent_sizes self).

(** The events that resume the producer with what its [await] yields. *)
Definition resumes_producer (ev : event) : Prop :=
  match ev with
  | ProducerWake | CountReply _ | HashesReply _ | BlocksReply _
  | BlocksNotHex => True
  | Signal | ConsumerWake | Raises _ => False
  end.

(** A round of two blocks on a fresh cache over an empty database, and the
    consumer taking the first of them. *)
Definition two_blocks_one_taken : list event :=
  [ProducerWake; CountReply 2; HashesReply ["h1"; "h2"];
   BlocksReply [zeros 1; zeros 2]; ConsumerWake; ConsumerWake].

(** A round on a fresh cache over an empty database up to the point where
    its two hashes are back and its block batch is out. *)
Definition two_hashes_back : list event :=
  [ProducerWake; CountReply 2; HashesReply ["h1"; "h2"]].

(** The call that hands a buffered block to the processor. *)
Definition hand_over (hb : Z * Block) : effect := ProcessBlock (fst hb) (snd hb).

(** The consumer is inside its loops, in one of its two sleeps. *)
Definition asleep (k : consumer) : Prop :=
  match k with
  | CSleep1 | CSleep0 => True
  | CReady | CDone => False
  end.

(** [n] heights running down from [hi]. *)
Fixpoint down (n : nat) (hi : Z) : list Z :=
  match n with
  | O => []
  | S n' => hi :: down n' (hi - 1)
  end.

(** The heights from [hi] down to [lo + 1]. *)
Definition countdown (hi lo : Z) : list Z := down (Z.to_nat (hi - lo)) hi.

(** Along [evs] from [s], the daemon answers every batch in full and never
    reports a tip below what was fetched. *)
Fixpoint well_behaved (s : system) (evs : list event) : Prop :=
  match evs with
  | [] => True
  | ev :: evs' =>
      answers_batch s ev /\ tip_not_below s ev /\
      match step s ev with
      | Some s' => well_behaved s' evs'
      | None => True
      end
  end.

(** A round in flight asks for a positive number of heights, the ones
    above [fetched_height]. *)
Definition round_in_order (s : system) : Prop :=
  match prod s with
  | PAwaitHashes count first =>
      0 < count /\ first = fetched_height (cache s) + 1
  | PAwaitBlocks count first hashes =>
      0 < count /\ first = fetched_height (cache s) + 1 /\
      length hashes = Z.to_nat count
  | _ => True
  end.

(** The buffer, head to tail, followed by what was processed, newest first,
    is the run of heights above the database height: up to
    [fetched_height] while running, and once stopped up to where the
    consumer got, with nothing buffered. *)
Definition ordered (db_height : Z) (s : system) : Prop :=
  round_in_order s /\
  if stop (cache s) then
    blocks (cache s) = [] /\
    exists top, db_height <= top /\ processed (log s) = countdown top db_height
  else
    db_height <= fetched_height (cache s) /\
    heights (blocks (cache s)) ++ processed (log s)
    = countdown (fetched_height (cache s)) db_height.

(** The size window and its average agree: an empty window with average 0,
    or a window in use; and no size is negative. *)
Definition sizes_consistent (self : t) : Prop :=
  Forall (fun size => 0 <= size) (recent_sizes self) /\
  0 <= ave_size self /\
  (recent_sizes self = [] /\ ave_size self = 0 \/ tracked self).

End BlockCache.

(** Case analysis on where the producer is suspended, for a step that
    depends on it. *)
Ltac case_prod s Hstep Hp :=
  try (match type of Hstep with
       | context [BlockCache.prod s] =>
           destruct (BlockCache.prod s) eqn:Hp; try discriminate
       end).

(** Case analysis on the test of the first conditional of the goal. *)
Ltac case_if :=
  match goal with
  | |- context [if ?b then _ else _] => destruct b eqn:?
  end.

(** * Properties of the RPC client *)

Module RPCProofs.
Import Py RPC.

Lemma daemon_failed (payload : value) (e : string) (net : list attempt) :
  daemon payload (Failed e :: net)
  = mkRun (out (daemon payload net))
          (failed_attempt payload e ++ trace (daemon payload net))
          (rest (daemon payload net)).
Proof. reflexivity. Qed.

(** What is no [Exception] goes through [daemon] to its caller, also after
    failed attempts. *)
Lemma daemon_lets_non_exceptions_through (payload : value) (es : list string)
      (name : string) (net' : list attempt) :
  out (daemon payload (map Failed es ++ Interrupted name :: net'))
  = Raised (NonException name).
Proof. induction es as [|e es IH]; [reflexivity|exact IH]. Qed.

(** C10. Whatever the payload, and whatever [Exception]s the attempts end
    in, [daemon] does not raise: it returns the first reply, having before it
    for every failed attempt posted the payload, logged the failure, logged
    the wait and slept one second, in this order, and then posted the same
    payload once more; and while every attempt so far has failed it is still
    in its loop, with the same four steps per attempt behind it. *)
Theorem daemon_retries_until_reply (payload : value) (net : list attempt) :
  Forall caught net ->
  (forall e, out (daemon payload net) <> Raised e) /\
  ((exists es reply net',
       net = map Failed es ++ Responded reply :: net' /\
       out (daemon payload net) = Returned reply /\
       rest (daemon payload net) = net' /\
       trace (daemon payload net)
       = flat_map (fun e => [Post payload;
                             Log Error (String.append "aiohttp error: " e);
                             Log Info "sleeping 1 second and trying again...";
                             Sleep 1]) es
         ++ [Post payload])
   \/
   (exists es,
       net = map Failed es /\
       out (daemon payload net) = Pending /\
       rest (daemon payload net) = [] /\
       trace (daemon payload net)
       = flat_map (fun e => [Post payload;
                             Log Error (String.append "aiohttp error: " e);
                             Log Info "sleeping 1 second and trying again...";
                             Sleep 1]) es)).
Proof.
  induction net as [|a net IH]; intros Hnet.
  - split; [discriminate|]. right. exists []. repeat split.
  - inversion Hnet as [|a' net' Ha Hnet']; subst.
    destruct (IH Hnet') as [IHraise IHshape]. clear IH.
    destruct a as [reply|e|name]; [| |contradiction].
    + split; [discriminate|]. left. exists [], reply, net. repeat split.
    + rewrite daemon_failed. cbn [out trace rest]. split; [exact IHraise|].
      destruct IHshape as [(es & reply & net' & Hn & Ho & Hr & Ht)
                          |(es & Hn & Ho & Hr & Ht)].
      * left. exists (e :: es), reply, net'. subst net.
        split; [reflexivity|]. split; [exact Ho|]. split; [exact Hr|].
        rewrite Ht. reflexivity.
      * right. exists (e :: es). subst net.
        split; [reflexivity|]. split; [exact Ho|]. split; [exact Hr|].
        rewrite Ht. reflexivity.
Qed.

Lemma daemon_retries_until_reply_witness :
  (forall e,
      out (daemon (VDict [("method", VStr "getblockcount")])
                  [Failed "Cannot connect to host"; Failed "Timeout";
                   Responded (reply_ok (VInt 7))]) <> Raised e) /\
  ((exists es reply net',
       [Failed "Cannot connect to host"; Failed "Timeout";
        Responded (reply_ok (VInt 7))]
       = map Failed es ++ Responded reply :: net' /\
       out (daemon (VDict [("method", VStr "getblockcount")])
                   [Failed "Cannot connect to host"; Failed "Timeout";
                    Responded (reply_ok (VInt 7))]) = Returned reply /\
       rest (daemon (VDict [("method", VStr "getblockcount")])
                    [Failed "Cannot connect to host"; Failed "Timeout";
                     Responded (reply_ok (VInt 7))]) = net' /\
       trace (daemon (VDict [("method", VStr "getblockcount")])
                     [Failed "Cannot connect to host"; Failed "Timeout";
                      Responded (reply_ok (VInt 7))])
       = flat_map (fun e => [Post (VDict [("method", VStr "getblockcount")]);
                             Log Error (String.append "aiohttp error: " e);
                             Log Info "sleeping 1 second and trying again...";
                             Sleep 1]) es
         ++ [Post (VDict [("method", VStr "getblockcount")])])
   \/
   (exists es,
       [Failed "Cannot connect to host"; Failed "Timeout";
        Responded (reply_ok (VInt 7))] = map Failed es /\
       out (daemon (VDict [("method", VStr "getblockcount")])
                   [Failed "Cannot connect to host"; Failed "Timeout";
                    Responded (reply_ok (VInt 7))]) = Pending /\
       rest (daemon (VDict [("method", VStr "getblockcount")])
                    [Failed "Cannot connect to host"; Failed "Timeout";
                     Responded (reply_ok (VInt 7))]) = [] /\
       trace (daemon (VDict [("method", VStr "getblockcount")])
                     [Failed "Cannot connect to host"; Failed "Timeout";
                      Responded (reply_ok (VInt 7))])
       = flat_map (fun e => [Post (VDict [("method", VStr "getblockcount")]);
                             Log Error (String.append "aiohttp error: " e);
                             Log Info "sleeping 1 second and trying again...";
                             Sleep 1]) es)).
Proof.
  apply (daemon_retries_until_reply
           (VDict [("method", VStr "getblockcount")])
           [Failed "Cannot connect to host"; Failed "Timeout";
            Responded (reply_ok (VInt 7))]).
  repeat constructor.
Defined.

Lemma mapM_reply_ok_error (rs : list value) :
  mapM (fun dresult => getitem dresult "error") (map reply_ok rs)
  = Ok (map (fun _ => VNone) rs).
Proof.
  induction rs as [|r rs IH]; [reflexivity|].
  cbn [map mapM]. rewrite IH. reflexivity.
Qed.

Lemma mapM_reply_ok_result (rs : list value) :
  mapM (fun dresult => getitem dresult "result") (map reply_ok rs) = Ok rs.
Proof.
  induction rs as [|r rs IH]; [reflexivity|].
  cbn [map mapM]. rewrite IH. reflexivity.
Qed.

Lemma any_all_none (rs : list value) : any (map (fun _ => VNone) rs) = false.
Proof. induction rs as [|r rs IH]; [reflexivity|exact IH]. Qed.

(** When no element carries an error, the results come back in the order
    of the elements. *)
Lemma rpc_multi_body_all_ok (rs : list value) :
  rpc_multi_body (VList (map reply_ok rs)) = Ok (Return rs).
Proof.
  unfold rpc_multi_body. cbn [iter bind].
  rewrite mapM_reply_ok_error. cbn [bind]. rewrite any_all_none.
  cbn [negb]. rewrite mapM_reply_ok_result. reflexivity.
Qed.

Lemma mapM_reply_err_error (msg : string) (codes : list Z) :
  mapM (fun dresult => getitem dresult "error")
       (map (fun code => reply_err code msg) codes)
  = Ok (map (fun code => VDict [("code", VInt code); ("message", VStr msg)])
            codes).
Proof.
  induction codes as [|c codes IH]; [reflexivity|].
  cbn [map mapM]. rewrite IH. reflexivity.
Qed.

Lemma scan_errs_dicts (msg : string) (codes : list Z) :
  scan_errs (map (fun code => VDict [("code", VInt code); ("message", VStr msg)])
                 codes)
  = Ok (if existsb (fun code => code =? -28) codes then 10 else 0).
Proof.
  induction codes as [|c codes IH]; [reflexivity|].
  cbn [map scan_errs get lookup String.eqb Ascii.eqb Bool.eqb bind eq_int existsb].
  destruct (c =? -28); [reflexivity|exact IH].
Qed.

(** When every element carries an error object, the batch is retried:
    after 10 if one of the codes is -28, at once otherwise. *)
Lemma rpc_multi_body_all_err (msg : string) (c : Z) (codes : list Z) :
  rpc_multi_body (VList (map (fun code => reply_err code msg) (c :: codes)))
  = Ok (Retry (if existsb (fun code => code =? -28) (c :: codes) then 10 else 0)).
Proof.
  unfold rpc_multi_body. cbn [iter bind].
  rewrite mapM_reply_err_error. cbn [bind].
  replace (any _) with true by reflexivity. cbn [negb].
  rewrite scan_errs_dicts. reflexivity.
Qed.

(** The sibling loop tests the error before it looks into it. *)
Lemma rpc_single_body_ok (r : value) :
  rpc_single_body (reply_ok r) = Ok (Return r).
Proof. reflexivity. Qed.

(** C1. On the batch reply whose third element of five carries code -28
    while the others succeeded, the loop body of [rpc_multi] calls [.get]
    on the [None] error of the first element: [rpc_multi] raises
    [AttributeError] out of its loop, where a retry after 10 was due. *)
Theorem rpc_multi_mixed_reply_raises :
  rpc_multi_body mixed_reply = Raise AttributeError /\
  forall net,
    out (rpc_multi "getblockhash" five_heights (Responded mixed_reply :: net))
    = Raised AttributeError.
Proof. split; [reflexivity|]. intros net. reflexivity. Qed.

End RPCProofs.

(** * Properties of the block cache: batch sizing and the size window *)

Module SizingProofs.
Import Py BlockCache.

(** C9. [prefill_count] is at least 10 for every room and every average;
    it is 10 when no average is known (zero), and otherwise the larger of
    10 and the floor quotient of room by average. *)
Theorem prefill_count_floor_10 (self : t) (room : Z) :
  10 <= prefill_count self room /\
  (ave_size self = 0 -> prefill_count self room = 10) /\
  (ave_size self <> 0 ->
   prefill_count self room = Z.max 10 (room / ave_size self)).
Proof.
  unfold prefill_count. repeat split.
  - apply Z.le_max_r.
  - intros ->. reflexivity.
  - intros Hne. destruct (Z.eqb_spec (ave_size self) 0) as [He|_];
      [contradiction|]. cbn [negb]. apply Z.max_comm.
Qed.

Lemma prefill_count_floor_10_witness :
  10 <= prefill_count (mk false 10 0 0 [] [0; 0] 0) 0 /\
  prefill_count (mk false 10 0 0 [] [0; 0] 0) 0 = 10 /\
  prefill_count (mk false 10 120 100 [] [900; 1100] 1000) 10485760 = 10485.
Proof.
  split; [|split].
  - exact (proj1 (prefill_count_floor_10 (mk false 10 0 0 [] [0; 0] 0) 0)).
  - apply (proj1 (proj2 (prefill_count_floor_10
                           (mk false 10 0 0 [] [0; 0] 0) 0))).
    reflexivity.
  - change 10485 with (Z.max 10 (10485760 / 1000)).
    apply (proj2 (proj2 (prefill_count_floor_10
                           (mk false 10 120 100 [] [900; 1100] 1000)
                           10485760))).
    discriminate.
Defined.

Lemma len_nonneg {A} (l : list A) : 0 <= len l.
Proof. unfold len. lia. Qed.

Lemma len_app {A} (l1 l2 : list A) : len (l1 ++ l2) = len l1 + len l2.
Proof. unfold len. rewrite length_app. lia. Qed.

Lemma sum_cons (x : Z) (l : list Z) : sum (x :: l) = x + sum l.
Proof. reflexivity. Qed.

Lemma sum_app (l1 l2 : list Z) : sum (l1 ++ l2) = sum l1 + sum l2.
Proof.
  induction l1 as [|x l1 IH]; [reflexivity|].
  cbn [app]. rewrite !sum_cons, IH. lia.
Qed.

(** The trimming of [maybe_prefill] keeps the last 50 entries. *)
Lemma trim_is_lastn (l : list Z) :
  (if len l - 50 >? 0 then skipn (Z.to_nat (len l - 50)) l else l)
  = lastn 50 l.
Proof.
  unfold lastn, len. destruct (Z.gtb_spec (Z.of_nat (length l) - 50) 0).
  - f_equal. lia.
  - replace (length l - 50)%nat with 0%nat by lia. reflexivity.
Qed.

Lemma length_lastn {A} (n : nat) (l : list A) :
  length (lastn n l) = Nat.min n (length l).
Proof. unfold lastn. rewrite length_skipn. lia. Qed.


Lemma sum_lens_nonneg (l : list Block) :
  0 <= sum (map (fun block => len block) l).
Proof.
  induction l as [|b l IH]; cbn [map]; [cbn; lia|].
  rewrite sum_cons. pose proof (len_nonneg b). lia.
Qed.

(** One round of bookkeeping on a window that does not end up empty. *)
Lemma update_sizes_ok (self : t) (fetched : list Block) :
  recent_sizes self ++ map (fun block => len block) fetched <> [] ->
  let w := lastn 50 (recent_sizes self ++ map (fun block => len block) fetched) in
  update_sizes self fetched
  = (set_ave_size (sum w / len w) (set_recent_sizes w self), None).
Proof.
  intros Hne w. unfold update_sizes. rewrite trim_is_lastn. fold w.
  unfold floordiv. destruct (Z.eqb_spec (len w) 0) as [Hz|_]; [|reflexivity].
  exfalso. unfold len in Hz. subst w. rewrite length_lastn in Hz.
  destruct (recent_sizes self ++ map (fun block => len block) fetched);
    [congruence|cbn [length] in Hz; lia].
Qed.

(** One round of bookkeeping on an empty window with an empty batch. *)
Lemma update_sizes_empty (self : t) :
  recent_sizes self = [] ->
  update_sizes self [] = (set_recent_sizes [] self, Some ZeroDivisionError).
Proof. intros H. unfold update_sizes. rewrite H. reflexivity. Qed.

Lemma lastn_nonempty {A} (l : list A) : l <> [] -> lastn 50 l <> [].
Proof.
  intros Hne Hnil. apply (f_equal (@length A)) in Hnil.
  rewrite length_lastn in Hnil. destruct l; [congruence|].
  cbn [length] in Hnil. lia.
Qed.


Lemma update_sizes_tracked (self : t) (fetched : list Block) :
  recent_sizes self ++ map (fun block => len block) fetched <> [] ->
  exists c, update_sizes self fetched = (c, None) /\ tracked c /\
            recent_sizes c
            = lastn 50 (recent_sizes self
                          ++ map (fun block => len block) fetched).
Proof.
  intros Hne. eexists. split; [apply update_sizes_ok; exact Hne|].
  split; [|reflexivity]. repeat split.
  - apply lastn_nonempty, Hne.
  - cbn [recent_sizes set_ave_size set_recent_sizes].
    rewrite length_lastn. lia.
Qed.





End SizingProofs.

(** * Properties of the block cache: one producer round *)

Module RoundProofs.
Import Py BlockCache.

Lemma one_block_round_exec :
  exec (start 0) one_block_round = Some one_block_buffered.
Proof. vm_compute. reflexivity. Qed.

Lemma length_range (a b : Z) : length (range a b) = Z.to_nat (b - a).
Proof. unfold range. now rewrite length_map, length_seq. Qed.

Lemma range_empty (a b : Z) : b <= a -> range a b = [].
Proof.
  intros H. unfold range. replace (Z.to_nat (b - a)) with 0%nat by lia.
  reflexivity.
Qed.

Lemma nth_error_range (a b : Z) (i : nat) :
  (i < Z.to_nat (b - a))%nat ->
  nth_error (range a b) i = Some (a + Z.of_nat i).
Proof.
  intros H. unfold range.
  rewrite nth_error_map, nth_error_seq.
  destruct (Nat.ltb_spec i (Z.to_nat (b - a))); [reflexivity|lia].
Qed.

(** With the 4096-byte block of the first round still buffered, the code
    asks for 2560 blocks; with the room reduced by the occupancy it would
    be 2559. *)
Lemma fetch_count_ignores_occupancy :
  exec (start 0) one_block_round = Some one_block_buffered /\
  cache_used (cache one_block_buffered) = 4096 /\
  fetch_count (cache one_block_buffered) 5000 = 2560 /\
  spec_fetch_count (cache one_block_buffered) 5000 = 2559 /\
  exists s', step one_block_buffered (CountReply 5000) = Some s' /\
             prod s' = PAwaitHashes 2560 2.
Proof.
  split; [exact one_block_round_exec|].
  repeat split; try (vm_compute; reflexivity).
  eexists. split; reflexivity.
Qed.

(** C3, amended. When [getblockcount] answers [height] and the stop flag
    is clear, the round's count is the least of [height - fetched_height],
    4000 and [prefill_count] of the whole byte limit (10 when no average is
    known, else the larger of 10 and limit / average), whatever the buffer
    holds; a count of zero ends the catch-up, and a positive count requests
    exactly the heights [fetched_height + 1 .. fetched_height + count]. *)
Theorem fetch_count_uses_whole_limit (s : system) (height : Z) :
  prod s = PAwaitCount ->
  stop (cache s) = false ->
  let limit := cache_limit (cache s) * 1024 * 1024 in
  let count :=
    Z.min (Z.min (height - fetched_height (cache s)) 4000)
          (if ave_size (cache s) =? 0 then 10
           else Z.max 10 (limit / ave_size (cache s))) in
  let first := fetched_height (cache s) + 1 in
  exists s',
    step s (CountReply height) = Some s' /\
    daemon_height (cache s') = height /\
    (count = 0 -> prod s' = PDone /\ log s' = log s) /\
    (0 < count ->
     prod s' = PAwaitHashes count first /\
     log s' = GetBlockHash (range first (first + count)) :: log s /\
     len (range first (first + count)) = count /\
     forall i, (i < Z.to_nat count)%nat ->
               nth_error (range first (first + count)) i
               = Some (first + Z.of_nat i)).
Proof.
  intros Hprod Hstop limit count first.
  assert (Hcount : fetch_count (set_daemon_height height (cache s)) height
                   = count).
  { unfold fetch_count, prefill_count, limit_bytes, count, limit.
    cbn [set_daemon_height fetched_height ave_size cache_limit].
    destruct (ave_size (cache s) =? 0); cbn [negb];
      [reflexivity|now rewrite Z.max_comm]. }
  exists (after_count s height). unfold step. rewrite Hprod.
  split; [reflexivity|]. unfold after_count. rewrite Hcount.
  cbn [set_daemon_height stop]. rewrite Hstop, orb_false_r.
  destruct (Z.eqb_spec count 0) as [Hz|Hnz].
  - split; [reflexivity|]. split; [intros _; split; reflexivity|]. lia.
  - split; [reflexivity|]. split; [intros Hz; contradiction|].
    intros Hpos. cbn [fetched_height]. fold first.
    split; [reflexivity|]. split; [reflexivity|].
    split.
    + unfold len. rewrite length_range. lia.
    + intros i Hi. apply nth_error_range.
      replace (first + count - first) with count by lia. exact Hi.
Qed.

Lemma fetch_count_uses_whole_limit_witness :
  exists s',
    step one_block_buffered (CountReply 5000) = Some s' /\
    daemon_height (cache s') = 5000 /\
    (2560 = 0 -> prod s' = PDone /\ log s' = log one_block_buffered) /\
    (0 < 2560 ->
     prod s' = PAwaitHashes 2560 2 /\
     log s' = GetBlockHash (range 2 (2 + 2560)) :: log one_block_buffered /\
     len (range 2 (2 + 2560)) = 2560 /\
     forall i, (i < Z.to_nat 2560)%nat ->
               nth_error (range 2 (2 + 2560)) i = Some (2 + Z.of_nat i)).
Proof.
  apply (fetch_count_uses_whole_limit one_block_buffered 5000); reflexivity.
Defined.

(** After the first hash batch of a fresh cache is back, the block batch
    is out and [fetched_height] is still the database height. *)
Lemma fetched_height_waits_for_blocks : ~ advanced_after_hashes.
Proof.
  intros H.
  specialize (H 0 (after_count (awaiting_count 0) 2) 2 1 ["h1"; "h2"]
                (after_hashes (after_count (awaiting_count 0) 2) 2 1
                              ["h1"; "h2"])).
  assert (Hr : reachable 0 (after_count (awaiting_count 0) 2)).
  { exists [ProducerWake; CountReply 2]. reflexivity. }
  specialize (H Hr eq_refl eq_refl eq_refl). vm_compute in H. discriminate.
Qed.

Lemma loop_top_cache (s : system) : cache (loop_top s) = cache s.
Proof. unfold loop_top. repeat case_if; reflexivity. Qed.

Lemma after_count_cache (s : system) (height : Z) :
  cache (after_count s height) = set_daemon_height height (cache s).
Proof. unfold after_count. case_if; reflexivity. Qed.

Lemma after_hashes_cache (s : system) (count first : Z) (hashes : list Hash) :
  cache (after_hashes s count first hashes) = cache s.
Proof. unfold after_hashes. case_if; reflexivity. Qed.

Lemma outer_loop_cache (s : system) : cache (outer_loop s) = cache s.
Proof. unfold outer_loop. case_if; reflexivity. Qed.

Lemma inner_loop_cache (s : system) :
  cache (inner_loop s)
  = match pop (blocks (cache s)) with
    | Some (remaining, _) => set_blocks remaining (cache s)
    | None => cache s
    end.
Proof.
  unfold inner_loop. destruct (pop (blocks (cache s))) as [[remaining [h b]]|];
    [reflexivity|apply outer_loop_cache].
Qed.

Lemma update_sizes_fields (c : t) (fetched : list Block) :
  let c' := fst (update_sizes c fetched) in
  stop c' = stop c /\ cache_limit c' = cache_limit c /\
  daemon_height c' = daemon_height c /\
  fetched_height c' = fetched_height c /\ blocks c' = blocks c.
Proof.
  unfold update_sizes. destruct (floordiv _ _); cbn; repeat split.
Qed.

Lemma after_blocks_fetched_height (s : system) (count first : Z)
      (fetched : list Block) :
  fetched_height (cache (after_blocks s count first fetched))
  = fetched_height (cache s) + count.
Proof.
  unfold after_blocks. cbn [stop set_fetched_height]. case_if; [reflexivity|].
  match goal with
  | |- context [update_sizes ?c ?f] =>
      pose proof (update_sizes_fields c f) as Hf;
      destruct (update_sizes c f) as [c' [e|]]
  end; cbn [fst] in Hf; destruct Hf as (_ & _ & _ & Hf & _);
    rewrite ?loop_top_cache; cbn [cache with_prod with_cache]; rewrite Hf;
    reflexivity.
Qed.

Lemma after_bad_blocks_fetched_height (s : system) (count : Z) :
  fetched_height (cache (after_bad_blocks s count))
  = fetched_height (cache s) + count.
Proof.
  unfold after_bad_blocks. cbn [stop set_fetched_height].
  case_if; reflexivity.
Qed.

(** C4, amended. [fetched_height] moves at one place only: when the block
    batch is back it grows by the round's count, before the stop flag is
    looked at and before the blocks are decoded.  The hash batch coming back
    leaves it as it was, and so does every other transition, an awaited call
    that raises included. *)
Theorem fetched_height_advances_after_blocks (s s' : system) (ev : event) :
  step s ev = Some s' ->
  fetched_height (cache s')
  = match ev, prod s with
    | BlocksReply _, PAwaitBlocks count _ _ => fetched_height (cache s) + count
    | BlocksNotHex, PAwaitBlocks count _ _ => fetched_height (cache s) + count
    | _, _ => fetched_height (cache s)
    end.
Proof.
  unfold step. intros Hstep.
  destruct ev; destruct (prod s) eqn:Hp; try discriminate;
    try (destruct (cons s); try discriminate);
    injection Hstep as <-;
    rewrite ?loop_top_cache, ?after_count_cache, ?after_hashes_cache,
      ?outer_loop_cache, ?inner_loop_cache, ?after_blocks_fetched_height,
      ?after_bad_blocks_fetched_height;
    try reflexivity;
    destruct (pop (blocks (cache s))) as [[remaining hb]|]; reflexivity.
Qed.

Lemma fetched_height_advances_after_blocks_witness :
  fetched_height
    (cache (after_hashes (after_count (awaiting_count 0) 2) 2 1 ["h1"; "h2"]))
  = fetched_height (cache (after_count (awaiting_count 0) 2)) /\
  fetched_height
    (cache (after_blocks
              (after_hashes (after_count (awaiting_count 0) 2) 2 1 ["h1"; "h2"])
              2 1 [zeros 1; zeros 2]))
  = fetched_height
      (cache (after_hashes (after_count (awaiting_count 0) 2) 2 1 ["h1"; "h2"]))
    + 2.
Proof.
  split.
  - apply (fetched_height_advances_after_blocks
             (after_count (awaiting_count 0) 2) _ (HashesReply ["h1"; "h2"])).
    reflexivity.
  - apply (fetched_height_advances_after_blocks
             (after_hashes (after_count (awaiting_count 0) 2) 2 1 ["h1"; "h2"])
             _ (BlocksReply [zeros 1; zeros 2])).
    reflexivity.
Defined.

(** C7. When [getblockcount] answers a height below [fetched_height] with
    the stop flag clear, the count is the negative difference and the round
    goes on: it asks for the hashes of an empty range of heights, then for
    the blocks, and when these are back [fetched_height] has dropped to the
    answered height; if the size window was empty and no block came, the
    average is then divided by zero. *)
Theorem negative_count_round (s : system) (height : Z) (hashes : list Hash)
        (fetched : list Block) :
  prod s = PAwaitCount ->
  stop (cache s) = false ->
  height < fetched_height (cache s) ->
  let count := height - fetched_height (cache s) in
  let first := fetched_height (cache s) + 1 in
  exists s1 s2 s3,
    step s (CountReply height) = Some s1 /\
    fetch_count (cache s1) height = count /\
    prod s1 = PAwaitHashes count first /\
    log s1 = GetBlockHash (range first (first + count)) :: log s /\
    range first (first + count) = [] /\
    step s1 (HashesReply hashes) = Some s2 /\
    prod s2 = PAwaitBlocks count first hashes /\
    step s2 (BlocksReply fetched) = Some s3 /\
    fetched_height (cache s3)
    = fetched_height (cache s) - (fetched_height (cache s) - height) /\
    (recent_sizes (cache s) = [] -> fetched = [] ->
     prod s3 = PCrashed ZeroDivisionError).
Proof.
  intros Hprod Hstop Hlow count first.
  assert (Hcount : fetch_count (set_daemon_height height (cache s)) height
                   = count).
  { unfold fetch_count. cbn [set_daemon_height fetched_height]. fold count.
    pose proof (Z.le_max_r
                  (if negb (ave_size (set_daemon_height height (cache s)) =? 0)
                   then limit_bytes (set_daemon_height height (cache s))
                        / ave_size (set_daemon_height height (cache s))
                   else 0) 10) as Hten.
    unfold prefill_count. unfold count in *. lia. }
  assert (Hs1 : after_count s height
                = with_prod (PAwaitHashes count first)
                    (emit (GetBlockHash (range first (first + count)))
                       (with_cache (set_daemon_height height (cache s)) s))).
  { unfold after_count. rewrite Hcount. cbn [set_daemon_height stop].
    rewrite Hstop, orb_false_r.
    destruct (Z.eqb_spec count 0) as [Hz|_]; [unfold count in Hz; lia|].
    reflexivity. }
  exists (after_count s height).
  exists (after_hashes (after_count s height) count first hashes).
  exists (after_blocks (after_hashes (after_count s height) count first hashes)
                       count first fetched).
  split; [unfold step; now rewrite Hprod|].
  split; [now rewrite after_count_cache|].
  rewrite Hs1. split; [reflexivity|]. split; [reflexivity|].
  split; [apply range_empty; unfold count; lia|].
  assert (Hs2 : after_hashes
                  (with_prod (PAwaitHashes count first)
                     (emit (GetBlockHash (range first (first + count)))
                        (with_cache (set_daemon_height height (cache s)) s)))
                  count first hashes
                = with_prod (PAwaitBlocks count first hashes)
                    (emit (GetBlock hashes)
                       (emit (GetBlockHash (range first (first + count)))
                          (with_cache (set_daemon_height height (cache s)) s)))).
  { unfold after_hashes. cbn [cache with_prod emit with_cache stop set_daemon_height].
    now rewrite Hstop. }
  split; [reflexivity|]. rewrite Hs2.
  split; [reflexivity|]. split; [reflexivity|].
  split.
  - rewrite after_blocks_fetched_height. cbn. unfold count. lia.
  - intros Hwin ->. unfold after_blocks.
    cbn [cache with_prod emit with_cache stop set_daemon_height
         set_fetched_height tag rev app set_blocks].
    rewrite Hstop. unfold update_sizes.
    cbn [recent_sizes set_blocks set_fetched_height set_daemon_height map].
    rewrite Hwin. reflexivity.
Qed.

Lemma negative_count_round_witness :
  exists s1 s2 s3,
    step (awaiting_count 5) (CountReply 2) = Some s1 /\
    fetch_count (cache s1) 2 = 2 - 5 /\
    prod s1 = PAwaitHashes (2 - 5) (5 + 1) /\
    log s1 = GetBlockHash (range (5 + 1) (5 + 1 + (2 - 5)))
               :: log (awaiting_count 5) /\
    range (5 + 1) (5 + 1 + (2 - 5)) = [] /\
    step s1 (HashesReply []) = Some s2 /\
    prod s2 = PAwaitBlocks (2 - 5) (5 + 1) [] /\
    step s2 (BlocksReply []) = Some s3 /\
    fetched_height (cache s3) = 5 - (5 - 2) /\
    (recent_sizes (cache (awaiting_count 5)) = [] -> @nil Block = [] ->
     prod s3 = PCrashed ZeroDivisionError).
Proof.
  apply (negative_count_round (awaiting_count 5) 2 [] []);
    [reflexivity|reflexivity|cbn; lia].
Defined.

End RoundProofs.

(** * Properties of the block cache: interleavings *)

Module InterleavingProofs.
Import Py BlockCache.
Import RoundProofs.

(** An invariant that may mention the events seen so far holds after every
    run once every step keeps it. *)
Lemma exec_invariant (inv : list event -> system -> Prop) :
  (forall seen s ev s',
      inv seen s -> step s ev = Some s' -> inv (seen ++ [ev]) s') ->
  forall evs seen s s',
    inv seen s -> exec s evs = Some s' -> inv (seen ++ evs) s'.
Proof.
  intros Hstep. induction evs as [|ev evs IH]; intros seen s s' Hinv Hexec.
  - cbn [exec] in Hexec. injection Hexec as <-. now rewrite app_nil_r.
  - cbn [exec] in Hexec. destruct (step s ev) as [s1|] eqn:Hs; [|discriminate].
    replace (seen ++ ev :: evs) with ((seen ++ [ev]) ++ evs)
      by now rewrite <- app_assoc.
    eapply IH; [|exact Hexec]. eapply Hstep; eassumption.
Qed.

(** *** Backpressure *)

Lemma pop_nil {A} : @pop A [] = None.
Proof. reflexivity. Qed.

Lemma pop_some {A} (l remaining : list A) (x : A) :
  pop l = Some (remaining, x) -> l = remaining ++ [x].
Proof.
  unfold pop. destruct (rev l) as [|y r] eqn:Hrev; [discriminate|].
  intros H. injection H as <- <-.
  rewrite <- (rev_involutive l), Hrev. reflexivity.
Qed.

Lemma sum_rev (l : list Z) : sum (rev l) = sum l.
Proof.
  induction l as [|x l IH]; [reflexivity|].
  cbn [rev]. rewrite SizingProofs.sum_app, IH, !SizingProofs.sum_cons.
  cbn. lia.
Qed.

Lemma map_snd_tag (height : Z) (fetched : list Block) :
  map snd (tag height fetched) = fetched.
Proof.
  revert height. induction fetched as [|b l IH]; intros height;
    [reflexivity|]. cbn [tag map snd]. now rewrite IH.
Qed.

Lemma cache_used_prepend (c : t) (first : Z) (fetched : list Block) :
  cache_used (set_blocks (rev (tag first fetched) ++ blocks c) c)
  = total_bytes fetched + cache_used c.
Proof.
  unfold cache_used, total_bytes. cbn [blocks set_blocks].
  rewrite map_app, SizingProofs.sum_app, map_rev, sum_rev.
  rewrite <- (map_map snd (fun block : Block => len block)), map_snd_tag.
  reflexivity.
Qed.

Lemma cache_used_pop (c : t) (remaining : list (Z * Block)) (hb : Z * Block) :
  blocks c = remaining ++ [hb] ->
  cache_used (set_blocks remaining c) <= cache_used c.
Proof.
  intros H. unfold cache_used. cbn [blocks set_blocks]. rewrite H.
  rewrite map_app, SizingProofs.sum_app. cbn [map]. rewrite SizingProofs.sum_cons.
  change (sum []) with 0.
  match goal with
  | |- ?a <= ?b + (?n + 0) =>
      assert (0 <= n) by apply SizingProofs.len_nonneg;
      change (a <= a + (n + 0)); generalize dependent a;
      generalize dependent n
  end. intros; lia.
Qed.

Lemma cache_used_same_blocks (c c' : t) :
  blocks c' = blocks c -> cache_used c' = cache_used c.
Proof. unfold cache_used. now intros ->. Qed.

Lemma limit_bytes_same_limit (c c' : t) :
  cache_limit c' = cache_limit c -> limit_bytes c' = limit_bytes c.
Proof. unfold limit_bytes. now intros ->. Qed.

Lemma loop_top_in_round (s : system) :
  in_round (prod (loop_top s)) ->
  cache_used (cache s) <= limit_bytes (cache s).
Proof.
  unfold loop_top. case_if; [contradiction|].
  destruct (Z.gtb_spec (cache_used (cache s)) (limit_bytes (cache s)));
    [contradiction|]. intros _. lia.
Qed.

Lemma last_batch_snoc (seen : list event) (ev : event) :
  last_batch (seen ++ [ev])
  = match ev with
    | BlocksReply fetched => fetched
    | _ => last_batch seen
    end.
Proof. unfold last_batch. rewrite fold_left_app. reflexivity. Qed.

Lemma total_bytes_nonneg (fetched : list Block) : 0 <= total_bytes fetched.
Proof. apply SizingProofs.sum_lens_nonneg. Qed.

Lemma step_bounded (seen : list event) (s s' : system) (ev : event) :
  bounded seen s -> step s ev = Some s' -> bounded (seen ++ [ev]) s'.
Proof.
  unfold bounded. intros (Hlim & Hround & Hb) Hstep.
  rewrite last_batch_snoc.
  destruct ev; cbn [step] in Hstep; case_prod s Hstep Hp;
    try injection Hstep as <-.
  - (* Signal *)
    split; [exact Hlim|].
    change (cache_used (cache (with_cache (on_signal (cache s)) s))) with 0.
    change (limit_bytes (cache (with_cache (on_signal (cache s)) s)))
      with (cache_limit (cache s) * 1024 * 1024).
    rewrite Hlim. pose proof (total_bytes_nonneg (last_batch seen)).
    split; [intros _; lia|lia].
  - (* ProducerWake *)
    rewrite loop_top_cache. split; [exact Hlim|].
    split; [apply loop_top_in_round|exact Hb].
  - (* CountReply *)
    rewrite after_count_cache. split; [exact Hlim|].
    split; [intros _; apply Hround; exact I|exact Hb].
  - (* HashesReply *)
    rewrite after_hashes_cache. split; [exact Hlim|].
    split; [intros _; apply Hround; exact I|exact Hb].
  - (* BlocksReply *)
    specialize (Hround I). pose proof (total_bytes_nonneg fetched) as Hnn.
    unfold after_blocks. cbv zeta.
    cbn [stop set_fetched_height]. case_if.
    + cbn [cache with_cache with_prod prod in_round].
      change (cache_used (set_fetched_height _ (cache s)))
        with (cache_used (cache s)).
      change (limit_bytes (set_fetched_height _ (cache s)))
        with (limit_bytes (cache s)).
      split; [exact Hlim|]. split; [contradiction|lia].
    + match goal with
      | |- context [update_sizes ?c ?f] =>
          pose proof (update_sizes_fields c f) as Hf;
          pose proof (cache_used_prepend
                        (set_fetched_height (fetched_height (cache s) + count)
                                            (cache s)) first fetched) as Hpre;
          destruct (update_sizes c f) as [c' [e|]]
      end; cbn [fst] in Hf; destruct Hf as (_ & Hl & _ & _ & Hbl);
        apply cache_used_same_blocks in Hbl;
        pose proof (limit_bytes_same_limit _ _ Hl) as Hlb;
        cbn in Hl; cbn [blocks set_fetched_height] in Hbl, Hpre.
      * cbn [cache prod with_prod with_cache].
        split; [congruence|]. split; [contradiction|].
        rewrite Hbl, Hlb, Hpre.
        change (cache_used (set_fetched_height _ (cache s)))
          with (cache_used (cache s)).
        change (limit_bytes (set_blocks _ _)) with (limit_bytes (cache s)).
        lia.
      * rewrite loop_top_cache. cbn [cache with_cache].
        split; [congruence|].
        split; [intros Hin; apply loop_top_in_round in Hin; exact Hin|].
        rewrite Hbl, Hlb, Hpre.
        change (cache_used (set_fetched_height _ (cache s)))
          with (cache_used (cache s)).
        change (limit_bytes (set_blocks _ _)) with (limit_bytes (cache s)).
        lia.
  - (* ConsumerWake *)
    assert (Hcase : cache s' = cache s /\ prod s' = prod s \/
                    exists remaining hb,
                      blocks (cache s) = remaining ++ [hb] /\
                      cache s' = set_blocks remaining (cache s) /\
                      prod s' = prod s).
    { destruct (cons s); try discriminate; injection Hstep as <-.
      - left. unfold outer_loop. case_if; split; reflexivity.
      - unfold inner_loop.
        destruct (pop (blocks (cache s))) as [[remaining hb]|] eqn:Hpop.
        + right. exists remaining, hb. apply pop_some in Hpop.
          destruct hb. repeat split; [exact Hpop].
        + left. unfold outer_loop. case_if; split; reflexivity.
      - unfold inner_loop.
        destruct (pop (blocks (cache s))) as [[remaining hb]|] eqn:Hpop.
        + right. exists remaining, hb. apply pop_some in Hpop.
          destruct hb. repeat split; [exact Hpop].
        + left. unfold outer_loop. case_if; split; reflexivity. }
    destruct Hcase as [(-> & ->)|(remaining & hb & Hbl & -> & ->)].
    + split; [exact Hlim|]. split; [exact Hround|exact Hb].
    + pose proof (cache_used_pop _ _ _ Hbl) as Hle.
      split; [exact Hlim|].
      change (limit_bytes (set_blocks remaining (cache s)))
        with (limit_bytes (cache s)).
      split; [intros Hin; specialize (Hround Hin); lia|lia].
  - (* Raises *)
    split; [exact Hlim|]. split; [contradiction|exact Hb].
  - split; [exact Hlim|]. split; [contradiction|exact Hb].
  - split; [exact Hlim|]. split; [contradiction|exact Hb].
  - (* BlocksNotHex *)
    specialize (Hround I). unfold after_bad_blocks. cbv zeta.
    cbn [stop set_fetched_height].
    case_if; cbn [cache with_cache with_prod prod in_round];
      change (cache_used (set_fetched_height _ (cache s)))
        with (cache_used (cache s));
      change (limit_bytes (set_fetched_height _ (cache s)))
        with (limit_bytes (cache s));
      (split; [exact Hlim|]); (split; [contradiction|exact Hb]).
Qed.

Lemma reachable_bounded (db_height : Z) (evs : list event) (s : system) :
  exec (start db_height) evs = Some s -> bounded evs s.
Proof.
  intros Hexec.
  apply (exec_invariant bounded
           (fun seen s0 ev s1 => step_bounded seen s0 s1 ev)
           evs [] (start db_height) s); [|exact Hexec].
  split; [reflexivity|]. split; [contradiction|]. cbn. lia.
Qed.

Lemma byte_size_total (fetched : list Block) :
  byte_size fetched = total_bytes fetched.
Proof.
  unfold total_bytes. induction fetched as [|b l IH]; [reflexivity|].
  cbn [byte_size map]. rewrite SizingProofs.sum_cons, IH. reflexivity.
Qed.

(** The code's measure of the occupancy is the sum of the byte lengths. *)
Lemma buffered_bytes_cache_used (s : system) :
  buffered_bytes s = cache_used (cache s).
Proof.
  unfold buffered_bytes, cache_used. rewrite byte_size_total.
  unfold total_bytes. now rewrite map_map.
Qed.

Lemma limit_bytes_10 (c : t) :
  cache_limit c = 10 -> limit_bytes c = 10 * 1024 * 1024.
Proof. unfold limit_bytes. now intros ->. Qed.

(** C5. In every reachable state, with the occupancy taken as the sum of
    the byte lengths of the buffered blocks and the limit as 10 MiB: a
    producer that is resumed from its wait with the stop flag clear and the
    occupancy above the limit stays in its wait, the system as it was and no
    call issued; a round whose batch takes the occupancy above the limit
    ends in the wait before another call is issued; no round is in flight
    while the occupancy is above the limit; and the occupancy is at most
    the limit plus the bytes of the last batch that came back. *)
Theorem backpressure (db_height : Z) (evs : list event) (s : system) :
  exec (start db_height) evs = Some s ->
  (prod s = PReady -> stop (cache s) = false ->
   buffered_bytes s > 10 * 1024 * 1024 ->
   step s ProducerWake = Some s) /\
  (forall fetched s',
      step s (BlocksReply fetched) = Some s' ->
      stop (cache s') = false ->
      buffered_bytes s' > 10 * 1024 * 1024 ->
      prod s' = PReady /\ log s' = log s) /\
  (in_round (prod s) -> buffered_bytes s <= 10 * 1024 * 1024) /\
  buffered_bytes s <= 10 * 1024 * 1024 + byte_size (last_batch evs).
Proof.
  intros Hexec.
  destruct (reachable_bounded _ _ _ Hexec) as (Hlim & Hround & Hb).
  rewrite byte_size_total, buffered_bytes_cache_used.
  rewrite <- (limit_bytes_10 _ Hlim).
  split; [|split; [|split; [exact Hround|exact Hb]]].
  - intros Hp Hstop Hover. cbn [step]. rewrite Hp. f_equal.
    unfold loop_top. rewrite Hstop.
    destruct (Z.gtb_spec (cache_used (cache s)) (limit_bytes (cache s)));
      [|lia].
    destruct s as [c p k l]. cbn in Hp. now subst p.
  - intros fetched s' Hstep Hstop Hover.
    rewrite buffered_bytes_cache_used in Hover.
    cbn [step] in Hstep. destruct (prod s) eqn:Hp; try discriminate.
    injection Hstep as <-. specialize (Hround I).
    revert Hstop Hover. unfold after_blocks. cbv zeta.
    cbn [stop set_fetched_height]. destruct (stop (cache s)) eqn:Hst.
    + cbn. congruence.
    + destruct (recent_sizes (cache s) ++ map (fun block => len block) fetched)
        as [|x w] eqn:Hw.
      * apply app_eq_nil in Hw. destruct Hw as (Hr & Hf).
        destruct fetched; [clear Hf|discriminate Hf].
        cbn [tag rev app]. rewrite SizingProofs.update_sizes_empty by exact Hr.
        cbn [cache with_cache with_prod]. intros _ Hover.
        change (cache_used (set_recent_sizes _ _)) with (cache_used (cache s))
          in Hover.
        lia.
      * rewrite SizingProofs.update_sizes_ok
          by (cbn [recent_sizes set_blocks set_fetched_height]; rewrite Hw;
              discriminate).
        cbv zeta. unfold loop_top.
        cbn [cache with_cache stop set_ave_size set_recent_sizes set_blocks
             set_fetched_height].
        rewrite Hst.
        match goal with
        | |- context [?a >? ?b] => destruct (Z.gtb_spec a b) as [Hgt|Hgt]
        end.
        -- cbn. auto.
        -- cbn [cache with_cache with_prod emit]. intros _ Hover.
           exfalso. revert Hgt Hover.
           change (limit_bytes (set_ave_size _ _)) with (limit_bytes (cache s)).
           lia.
Qed.

Lemma len_big_block : len big_block = 10485761.
Proof.
  unfold len, big_block, zeros. rewrite repeat_length. apply Z2Nat.id. lia.
Qed.

(** A round that fetches one block of more than the limit ends in the
    wait. *)
Lemma round_of_exec (block : Block) :
  len block > 10485760 ->
  exec (start 0) (round_of block) = Some (waiting_on block).
Proof.
  intros Hbig. unfold round_of.
  change (exec (start 0)
               [ProducerWake; CountReply 1; HashesReply ["00"];
                BlocksReply [block]])
    with (Some (after_blocks
                  (mkSystem (mk false 10 1 0 [] [] 0)
                            (PAwaitBlocks 1 1 ["00"]) CReady
                            [GetBlock ["00"]; GetBlockHash [1]; GetBlockCount])
                  1 1 [block])).
  f_equal. unfold after_blocks. cbv zeta.
  rewrite SizingProofs.update_sizes_ok by (cbn; discriminate).
  cbv zeta. unfold loop_top, waiting_on.
  cbn -[Z.div Z.gtb Z.mul len].
  change (limit_bytes _) with (10 * 1024 * 1024).
  change (len [len block]) with 1.
  destruct (Z.gtb_spec (len block + 0) (10 * 1024 * 1024)); [|lia].
  rewrite Z.add_0_r, Z.div_1_r. reflexivity.
Qed.

Lemma big_block_is_big : len big_block > 10485760.
Proof. rewrite len_big_block. reflexivity. Qed.

Lemma big_block_over_limit :
  buffered_bytes (waiting_on big_block) > 10 * 1024 * 1024.
Proof.
  rewrite buffered_bytes_cache_used. unfold cache_used.
  cbn [waiting_on cache blocks map snd].
  rewrite SizingProofs.sum_cons, len_big_block. change (sum []) with 0. lia.
Qed.

Lemma backpressure_witness :
  exec (start 0) (round_of big_block) = Some (waiting_on big_block) /\
  buffered_bytes (waiting_on big_block) > 10 * 1024 * 1024 /\
  step (waiting_on big_block) ProducerWake = Some (waiting_on big_block) /\
  buffered_bytes (waiting_on big_block)
  <= 10 * 1024 * 1024 + byte_size (last_batch (round_of big_block)).
Proof.
  pose proof (round_of_exec big_block big_block_is_big) as Hexec.
  pose proof (backpressure 0 (round_of big_block) (waiting_on big_block) Hexec)
    as (Hwait & _ & _ & Hbound).
  split; [exact Hexec|]. split; [exact big_block_over_limit|].
  split; [|exact Hbound].
  apply Hwait; [reflexivity|reflexivity|exact big_block_over_limit].
Defined.

(** *** Shutdown *)

Lemma step_shut_down_safely (s s' : system) (ev : event) :
  shut_down_safely s -> step s ev = Some s' -> shut_down_safely s'.
Proof.
  unfold shut_down_safely. intros (Hempty & Hflush & Hdone) Hstep.
  destruct ev; cbn [step] in Hstep.
  - injection Hstep as <-. cbn. intuition congruence.
  - destruct (prod s); try discriminate. injection Hstep as <-.
    unfold loop_top. repeat case_if; cbn; intuition congruence.
  - destruct (prod s); try discriminate. injection Hstep as <-.
    unfold after_count. case_if; cbn; intuition congruence.
  - destruct (prod s); try discriminate. injection Hstep as <-.
    unfold after_hashes. case_if; cbn; intuition congruence.
  - destruct (prod s); try discriminate. injection Hstep as <-.
    unfold after_blocks. cbn [stop set_fetched_height].
    destruct (stop (cache s)) eqn:Hstop; [cbn; intuition congruence|].
    match goal with
    | |- context [update_sizes ?c ?f] =>
        pose proof (update_sizes_fields c f) as Hf;
        destruct (update_sizes c f) as [c' [e|]]
    end; cbn [fst] in Hf; destruct Hf as (Hst & _ & _ & _ & _);
      cbn in Hst; rewrite Hstop in Hst.
    + cbn. intuition congruence.
    + unfold loop_top. cbn [cache with_cache with_prod].
      rewrite Hst. case_if; cbn; intuition congruence.
  - destruct (cons s) eqn:Hcons; try discriminate; injection Hstep as <-.
    + unfold outer_loop. case_if; cbn; intuition congruence.
    + unfold inner_loop.
      destruct (pop (blocks (cache s))) as [[remaining [h b]]|] eqn:Hpop.
      * cbn. repeat split; try congruence.
        intros Hst. rewrite (Hempty Hst), pop_nil in Hpop. discriminate.
      * unfold outer_loop. case_if; cbn; intuition congruence.
    + unfold inner_loop.
      destruct (pop (blocks (cache s))) as [[remaining [h b]]|] eqn:Hpop.
      * cbn. repeat split; try congruence.
        intros Hst. rewrite (Hempty Hst), pop_nil in Hpop. discriminate.
      * unfold outer_loop. case_if; cbn; intuition congruence.
  - destruct (prod s); try discriminate; injection Hstep as <-; cbn;
      intuition congruence.
  - destruct (prod s); try discriminate. injection Hstep as <-.
    unfold after_bad_blocks. cbv zeta. cbn [stop set_fetched_height].
    destruct (stop (cache s)) eqn:Hstop; cbn; intuition congruence.
Qed.

Lemma reachable_shut_down_safely (db_height : Z) (evs : list event)
      (s : system) :
  exec (start db_height) evs = Some s -> shut_down_safely s.
Proof.
  intros Hexec.
  apply (exec_invariant (fun _ => shut_down_safely)
           (fun _ s0 ev s1 => step_shut_down_safely s0 s1 ev)
           evs [] (start db_height) s); [|exact Hexec].
  repeat split; cbn; congruence.
Qed.

(** Only the consumer writes [Flush] into the log, and the producer
    leaves the consumer where it is. *)
Lemma step_other_than_consumer (s s' : system) (ev : event) :
  ev <> ConsumerWake -> step s ev = Some s' ->
  flushes (log s') = flushes (log s) /\ cons s' = cons s.
Proof.
  intros Hev Hstep. destruct ev; cbn [step] in Hstep; try congruence;
    [|destruct (prod s); try discriminate..]; injection Hstep as <-.
  - split; reflexivity.
  - unfold loop_top. repeat case_if; split; reflexivity.
  - unfold after_count. case_if; split; reflexivity.
  - unfold after_hashes. case_if; split; reflexivity.
  - unfold after_blocks. cbv zeta. case_if; [split; reflexivity|].
    destruct (update_sizes _ _) as [c' [e|]]; [split; reflexivity|].
    unfold loop_top. repeat case_if; split; reflexivity.
  - split; reflexivity.
  - split; reflexivity.
  - split; reflexivity.
  - unfold after_bad_blocks. cbv zeta. case_if; split; reflexivity.
Qed.

(** A stopped producer is done the next time it is resumed. *)
Lemma step_stopped_producer (s s' : system) (ev : event) :
  stop (cache s) = true -> resumes_producer ev -> step s ev = Some s' ->
  prod s' = PDone.
Proof.
  intros Hstop Hev Hstep. destruct ev; cbn [step] in Hstep;
    try contradiction; destruct (prod s); try discriminate;
    injection Hstep as <-.
  - unfold loop_top. now rewrite Hstop.
  - unfold after_count. cbn [stop set_daemon_height].
    now rewrite Hstop, orb_true_r.
  - unfold after_hashes. now rewrite Hstop.
  - unfold after_blocks. cbn [stop set_fetched_height]. now rewrite Hstop.
  - unfold after_bad_blocks. cbn [stop set_fetched_height]. now rewrite Hstop.
Qed.

(** C6. In every reachable state: a stop request sets the flag and
    empties the buffer, and touches nothing else of the log; once the flag
    is set, the consumer's next resumption takes it out of its loops and
    into the one [flush] call, without processing a block, and it is never
    resumed after that; the log holds no [Flush] before the consumer is
    done and exactly one from then on, so none while the flag is clear;
    and the producer's steps never add a [Flush], a stopped producer being
    done at its next resumption. *)
Theorem shutdown_protocol (db_height : Z) (evs : list event) (s : system) :
  exec (start db_height) evs = Some s ->
  (exists s', step s Signal = Some s' /\ stop (cache s') = true /\
              blocks (cache s') = [] /\ log s' = log s) /\
  (stop (cache s) = true -> cons s <> CDone ->
   exists s', step s ConsumerWake = Some s' /\ cons s' = CDone /\
              log s' = Flush :: log s) /\
  (cons s = CDone -> step s ConsumerWake = None) /\
  flushes (log s) = match cons s with CDone => 1%nat | _ => 0%nat end /\
  (stop (cache s) = false -> flushes (log s) = 0%nat) /\
  (forall ev s', ev <> ConsumerWake -> step s ev = Some s' ->
                 flushes (log s') = flushes (log s)) /\
  (forall ev s', stop (cache s) = true -> resumes_producer ev ->
                 step s ev = Some s' -> prod s' = PDone).
Proof.
  intros Hexec.
  destruct (reachable_shut_down_safely _ _ _ Hexec) as (Hempty & Hflush & Hdone).
  split; [eexists; split; [reflexivity|]; cbn; auto|].
  split.
  { intros Hstop Hcons. cbn [step]. unfold inner_loop, outer_loop.
    rewrite (Hempty Hstop), pop_nil, Hstop.
    destruct (cons s); try congruence; eexists; split; try reflexivity;
      split; reflexivity. }
  split; [intros Hk; cbn [step]; now rewrite Hk|].
  split; [exact Hflush|].
  split.
  { intros Hstop. rewrite Hflush. destruct (cons s); try reflexivity.
    specialize (Hdone eq_refl). congruence. }
  split.
  - intros ev s' Hev Hstep. eapply step_other_than_consumer; eassumption.
  - intros ev s' Hstop Hev Hstep. eapply step_stopped_producer; eassumption.
Qed.

Lemma shutdown_protocol_witness :
  exists s,
    exec (start 0) (one_block_round ++ [Signal]) = Some s /\
    stop (cache s) = true /\ cons s <> CDone /\
    exists s', step s ConsumerWake = Some s' /\ cons s' = CDone /\
               log s' = Flush :: log s.
Proof.
  eexists. split; [vm_compute; reflexivity|].
  split; [reflexivity|]. split; [discriminate|].
  refine (proj1 (proj2 (shutdown_protocol 0 (one_block_round ++ [Signal]) _ _))
                _ _);
    [vm_compute; reflexivity|reflexivity|discriminate].
Defined.

(** *** Buffer order *)

(** C2. The daemon reports tip 2, then 1, then 3, and answers every batch
    in full.  The round at tip 1 has count -1 and takes [fetched_height]
    back to 1, so the round at tip 3 fetches heights 2 and 3 on top of a
    buffer that still holds 2 and 1: the buffer reads 3, 2, 2, 1 from head
    to tail, which is not descending by one, and the consumer hands
    1, 2, 2, 3 to the processor. *)
Theorem buffer_order_broken_after_tip_drop :
  exists s s',
    exec (start 0) tip_drop = Some s /\
    heights (blocks (cache s)) = [3; 2; 2; 1] /\
    ~ descending (heights (blocks (cache s))) /\
    exec s drain = Some s' /\
    blocks (cache s') = [] /\
    rev (processed (log s')) = [1; 2; 2; 3].
Proof.
  eexists. eexists. split; [vm_compute; reflexivity|].
  split; [reflexivity|]. split.
  - cbn. intros [_ [H _]]. discriminate H.
  - split; [vm_compute; reflexivity|]. split; reflexivity.
Qed.

End InterleavingProofs.

(** * More on the RPC client: the retry loops as a whole *)

Module RetryProofs.
Import Py RPC.

Lemma slept_app (tr1 tr2 : list io) : slept (tr1 ++ tr2) = slept tr1 + slept tr2.
Proof.
  induction tr1 as [|i tr1 IH]; [reflexivity|].
  destruct i; cbn [app slept]; rewrite IH; lia.
Qed.

Lemma posts_app (tr1 tr2 : list io) : posts (tr1 ++ tr2) = posts tr1 ++ posts tr2.
Proof.
  induction tr1 as [|i tr1 IH]; [reflexivity|].
  destruct i; cbn [app posts]; rewrite IH; reflexivity.
Qed.

Lemma slept_retry_log (many : bool) (secs : Z) : slept (retry_log many secs) = secs.
Proof. unfold retry_log. destruct (secs =? 10); cbn [slept]; lia. Qed.

Lemma posts_retry_log (many : bool) (secs : Z) : posts (retry_log many secs) = [].
Proof. unfold retry_log. destruct (secs =? 10); reflexivity. Qed.

(** A failed attempt leaves a retry loop in the pass it is in. *)
Lemma retry_loop_failed {A} (many : bool) (body : value -> result (verdict A))
      (fuel : nat) (payload : value) (e : string) (net : list attempt) :
  retry_loop many body (S fuel) payload (Failed e :: net)
  = mkRun (out (retry_loop many body (S fuel) payload net))
          (failed_attempt payload e
             ++ trace (retry_loop many body (S fuel) payload net))
          (rest (retry_loop many body (S fuel) payload net)).
Proof.
  cbn [retry_loop daemon out trace rest].
  destruct (out (daemon payload net)) as [v| |]; try reflexivity.
  destruct (body v) as [[a|secs]|]; reflexivity.
Qed.

(** A reply that asks for a retry starts the next pass. *)
Lemma retry_loop_retry {A} (many : bool) (body : value -> result (verdict A))
      (fuel : nat) (payload v : value) (secs : Z) (net : list attempt) :
  body v = Ok (Retry secs) ->
  retry_loop many body (S fuel) payload (Responded v :: net)
  = mkRun (out (retry_loop many body fuel payload net))
          ([Post payload] ++ retry_log many secs
             ++ trace (retry_loop many body fuel payload net))
          (rest (retry_loop many body fuel payload net)).
Proof. intros H. cbn [retry_loop daemon out trace rest]. now rewrite H. Qed.

Lemma retry_loop_return {A} (many : bool) (body : value -> result (verdict A))
      (fuel : nat) (payload v : value) (x : A) (net : list attempt) :
  body v = Ok (Return x) ->
  retry_loop many body (S fuel) payload (Responded v :: net)
  = mkRun (Returned x) [Post payload] net.
Proof. intros H. cbn [retry_loop daemon out trace rest]. now rewrite H. Qed.

(** A retry loop gets through any number of attempts that send it round
    again and returns what its body makes of the first reply that does not:
    one post of the same payload per attempt, and the seconds slept are the
    sum of what the attempts cost. *)
Lemma retry_loop_first_result {A} (many : bool)
      (body : value -> result (verdict A)) (payload v : value) (x : A)
      (net' : list attempt) (pre : list attempt) :
  forall fuel,
    Forall (fun a => goes_round body a <> None) pre ->
    body v = Ok (Return x) ->
    (length pre < fuel)%nat ->
    let r := retry_loop many body fuel payload (pre ++ Responded v :: net') in
    out r = Returned x /\ rest r = net' /\
    slept (trace r) = sum (map (cost body) pre) /\
    posts (trace r) = repeat payload (S (length pre)).
Proof.
  induction pre as [|a pre IH]; intros fuel Hpre Hv Hfuel.
  - destruct fuel as [|fuel]; [cbn in Hfuel; lia|].
    cbn [app]. rewrite (retry_loop_return many body fuel payload v x net' Hv).
    repeat split.
  - inversion Hpre as [|a' pre' Ha Hpre']; subst.
    destruct fuel as [|fuel]; [cbn in Hfuel; lia|].
    cbn [length] in Hfuel. cbn [app map length].
    change (sum (cost body a :: map (cost body) pre))
      with (cost body a + sum (map (cost body) pre)).
    destruct a as [v'|e|name]; [| |cbn [goes_round] in Ha; congruence].
    + assert (Hb : exists secs, body v' = Ok (Retry secs)).
      { cbn [goes_round] in Ha. destruct (body v') as [[y|secs]|];
          try congruence. now exists secs. }
      destruct Hb as [secs Hb].
      replace (cost body (Responded v')) with secs
        by (unfold cost; cbn [goes_round]; now rewrite Hb).
      rewrite (retry_loop_retry many body fuel payload v' secs _ Hb).
      destruct (IH fuel Hpre' Hv ltac:(lia)) as (Ho & Hr & Hs & Hp).
      cbn [out rest trace]. split; [exact Ho|]. split; [exact Hr|].
      rewrite !slept_app, !posts_app, slept_retry_log, posts_retry_log, Hs, Hp.
      split; [cbn [slept]; lia|reflexivity].
    + rewrite retry_loop_failed.
      destruct (IH (S fuel) Hpre' Hv ltac:(lia)) as (Ho & Hr & Hs & Hp).
      cbn [out rest trace]. split; [exact Ho|]. split; [exact Hr|].
      rewrite slept_app, posts_app, Hs, Hp. split; reflexivity.
Qed.

Lemma single_attempt_goes_round (sb : setback) :
  goes_round rpc_single_body (single_attempt sb) = Some (setback_secs sb).
Proof.
  destruct sb as [e|code msg]; [reflexivity|].
  cbn. unfold warming_up. destruct (code =? -28); reflexivity.
Qed.

Lemma batch_attempt_goes_round (sb : batch_setback) :
  goes_round rpc_multi_body (batch_attempt sb) = Some (batch_setback_secs sb).
Proof.
  destruct sb as [e|code codes msg]; [reflexivity|].
  cbn [goes_round batch_attempt batch_setback_secs].
  rewrite RPCProofs.rpc_multi_body_all_err. reflexivity.
Qed.

Lemma sum_costs {S A} (body : value -> result (verdict A))
      (attempt_of : S -> attempt) (secs : S -> Z) (sbs : list S) :
  (forall sb, goes_round body (attempt_of sb) = Some (secs sb)) ->
  sum (map (cost body) (map attempt_of sbs)) = sum (map secs sbs).
Proof.
  intros H. induction sbs as [|sb sbs IH]; [reflexivity|].
  cbn [map]. change (sum (?x :: ?l)) with (x + sum l).
  unfold cost at 1. rewrite H, IH. reflexivity.
Qed.

Lemma goes_round_all {S A} (body : value -> result (verdict A))
      (attempt_of : S -> attempt) (secs : S -> Z) (sbs : list S) :
  (forall sb, goes_round body (attempt_of sb) = Some (secs sb)) ->
  Forall (fun a => goes_round body a <> None) (map attempt_of sbs).
Proof.
  intros H. induction sbs as [|sb sbs IH]; constructor; [|exact IH].
  rewrite H. discriminate.
Qed.

(** X1. [rpc_single] comes through transport failures and error replies: it
    returns the result of the first reply whose error is [None], having
    posted the same payload once per attempt and slept one second per
    transport failure, ten per warm-up error and none per other error. *)
Theorem rpc_single_returns_first_result (method : string) (params r : value)
        (sbs : list setback) (net' : list attempt) :
  let run := rpc_single method params
               (map single_attempt sbs ++ Responded (reply_ok r) :: net') in
  out run = Returned r /\ rest run = net' /\
  slept (trace run) = sum (map setback_secs sbs) /\
  posts (trace run)
  = repeat (single_payload method params) (S (length sbs)).
Proof.
  unfold rpc_single.
  pose proof (retry_loop_first_result false rpc_single_body
                (single_payload method params) (reply_ok r) r net'
                (map single_attempt sbs)
                (S (length (map single_attempt sbs
                              ++ Responded (reply_ok r) :: net')))
                (goes_round_all _ _ _ sbs single_attempt_goes_round)
                eq_refl) as H.
  rewrite (sum_costs _ _ _ sbs single_attempt_goes_round), length_map in H.
  apply H. rewrite length_app, length_map. lia.
Qed.

(** X2. [rpc_multi] comes through transport failures and replies in which
    every element carries an error object: it returns the results of the
    first reply without errors, in the order of the elements, having posted
    the same payload once per attempt and slept one second per transport
    failure, ten per reply with a warm-up code in it and none per other
    reply. *)
Theorem rpc_multi_returns_in_order (method : string) (param_lists rs : list value)
        (sbs : list batch_setback) (net' : list attempt) :
  let run := rpc_multi method param_lists
               (map batch_attempt sbs
                  ++ Responded (VList (map reply_ok rs)) :: net') in
  out run = Returned rs /\ rest run = net' /\
  slept (trace run) = sum (map batch_setback_secs sbs) /\
  posts (trace run)
  = repeat (multi_payload method param_lists) (S (length sbs)).
Proof.
  unfold rpc_multi.
  pose proof (retry_loop_first_result true rpc_multi_body
                (multi_payload method param_lists)
                (VList (map reply_ok rs)) rs net'
                (map batch_attempt sbs)
                (S (length (map batch_attempt sbs
                              ++ Responded (VList (map reply_ok rs)) :: net')))
                (goes_round_all _ _ _ sbs batch_attempt_goes_round)
                (RPCProofs.rpc_multi_body_all_ok rs)) as H.
  rewrite (sum_costs _ _ _ sbs batch_attempt_goes_round), length_map in H.
  apply H. rewrite length_app, length_map. lia.
Qed.

End RetryProofs.

(** * More on the RPC client: what a batch reply makes of [rpc_multi] *)

Module BatchProofs.
Import Py RPC.

Lemma mapM_element_error (items : list (value * value)) :
  mapM (fun dresult => getitem dresult "error") (map element items)
  = Ok (map snd items).
Proof.
  induction items as [|p items IH]; [reflexivity|].
  cbn [map mapM]. rewrite IH. reflexivity.
Qed.

Lemma mapM_element_result (items : list (value * value)) :
  mapM (fun dresult => getitem dresult "result") (map element items)
  = Ok (map fst items).
Proof.
  induction items as [|p items IH]; [reflexivity|].
  cbn [map mapM]. rewrite IH. reflexivity.
Qed.

(** The scan walks over the error objects that do not carry the warm-up
    code. *)
Lemma scan_errs_calm (pre post : list value) :
  Forall calm pre -> scan_errs (pre ++ post) = scan_errs post.
Proof.
  induction 1 as [|err pre (items & -> & Hcode) _ IH]; [reflexivity|].
  cbn [app scan_errs get bind].
  destruct (lookup "code" items) as [code|]; cbn [bind];
    [rewrite Hcode|]; exact IH.
Qed.

Lemma scan_errs_no_object (err : value) (post : list value) :
  no_object err -> scan_errs (err :: post) = Raise AttributeError.
Proof. destruct err; cbn; intros H; try reflexivity; contradiction. Qed.

Lemma scan_errs_warm (err : value) (post : list value) :
  warm err -> scan_errs (err :: post) = Ok 10.
Proof.
  intros (items & -> & Hcode). cbn [scan_errs get bind]. now rewrite Hcode.
Qed.

Lemma rpc_multi_body_elements (items : list (value * value)) :
  any (map snd items) = true ->
  rpc_multi_body (VList (map element items))
  = (secs <- scan_errs (map snd items);; Ok (Retry secs)).
Proof.
  intros Hany. unfold rpc_multi_body. cbn [iter bind].
  rewrite mapM_element_error. cbn [bind]. now rewrite Hany.
Qed.

(** X3. When some element of a batch reply carries an error, and the first
    element whose error field is not a calm error object (an object with a
    code other than -28) has an error field that is no object at all, such
    as the [None] of an element that succeeded, the loop body of [rpc_multi]
    raises [AttributeError]. *)
Theorem rpc_multi_body_raises_at_first_no_object
        (pre post : list (value * value)) (r err : value) :
  Forall calm (map snd pre) ->
  no_object err ->
  any (map snd (pre ++ (r, err) :: post)) = true ->
  rpc_multi_body (VList (map element (pre ++ (r, err) :: post)))
  = Raise AttributeError.
Proof.
  intros Hpre Herr Hany. rewrite (rpc_multi_body_elements _ Hany).
  rewrite map_app. cbn [map snd].
  rewrite (scan_errs_calm _ _ Hpre), (scan_errs_no_object _ _ Herr).
  reflexivity.
Qed.

Lemma rpc_multi_body_raises_at_first_no_object_witness :
  rpc_multi_body
    (VList (map element
              ([(VNone, VDict [("code", VInt (-5)); ("message", VStr "x")])]
                 ++ (VStr "h2", VNone)
                 :: [(VNone, VDict [("code", VInt (-28))])])))
  = Raise AttributeError.
Proof.
  apply (rpc_multi_body_raises_at_first_no_object
           [(VNone, VDict [("code", VInt (-5)); ("message", VStr "x")])]
           [(VNone, VDict [("code", VInt (-28))])] (VStr "h2") VNone).
  - constructor; [|constructor]. eexists. split; reflexivity.
  - exact I.
  - reflexivity.
Defined.

(** X4. When the first element of a batch reply whose error field is not a calm
    error object carries the warm-up code, the loop body of [rpc_multi]
    asks for a retry after 10 seconds, whatever the elements behind it
    hold. *)
Theorem rpc_multi_body_retries_at_first_warm
        (pre post : list (value * value)) (r err : value) :
  Forall calm (map snd pre) ->
  warm err ->
  rpc_multi_body (VList (map element (pre ++ (r, err) :: post)))
  = Ok (Retry 10).
Proof.
  intros Hpre Herr. rewrite rpc_multi_body_elements.
  - rewrite map_app. cbn [map snd].
    rewrite (scan_errs_calm _ _ Hpre), (scan_errs_warm _ _ Herr). reflexivity.
  - rewrite map_app. unfold any. rewrite existsb_app. cbn [map snd existsb].
    destruct Herr as (items & -> & Hcode). destruct items; [discriminate|].
    cbn [truthy]. now rewrite orb_true_l, orb_true_r.
Qed.

Lemma rpc_multi_body_retries_at_first_warm_witness :
  rpc_multi_body
    (VList (map element
              ([] ++ (VNone, VDict [("code", VInt (-28))])
                  :: [(VStr "h2", VNone); (VStr "h3", VNone)])))
  = Ok (Retry 10).
Proof.
  apply (rpc_multi_body_retries_at_first_warm
           [] [(VStr "h2", VNone); (VStr "h3", VNone)] VNone
           (VDict [("code", VInt (-28))])).
  - constructor.
  - eexists. split; reflexivity.
Defined.

(** X5. A batch reply that is not a JSON array is not told apart from one: an
    empty object or an empty string passes for a batch without elements,
    and anything else, a single error object for one, raises [TypeError]. *)
Theorem rpc_multi_body_not_a_list (v : value) :
  (forall l, v <> VList l) ->
  rpc_multi_body v
  = match v with
    | VDict [] | VStr EmptyString => Ok (Return [])
    | _ => Raise TypeError
    end.
Proof.
  intros Hv. destruct v as [|b|z|s|l|items]; try reflexivity.
  - destruct s as [|c s]; reflexivity.
  - now contradiction (Hv l).
  - destruct items as [|[k x] items]; reflexivity.
Qed.

Lemma rpc_multi_body_not_a_list_witness :
  rpc_multi_body (reply_err (-28) "Loading block index...") = Raise TypeError.
Proof.
  apply (rpc_multi_body_not_a_list (reply_err (-28) "Loading block index...")).
  discriminate.
Defined.

End BatchProofs.

(** * More on the block cache: order of the buffer under a daemon whose tip
      does not drop *)

Module OrderProofs.
Import Py BlockCache.

Lemma down_snoc (n : nat) :
  forall hi, down (S n) hi = down n hi ++ [hi - Z.of_nat n].
Proof.
  induction n as [|n IH]; intros hi.
  - cbn. f_equal. lia.
  - change (down (S (S n)) hi) with (hi :: down (S n) (hi - 1)).
    rewrite IH. cbn [down app]. do 3 f_equal. lia.
Qed.

Lemma down_app (n m : nat) :
  forall hi, down n hi ++ down m (hi - Z.of_nat n) = down (n + m) hi.
Proof.
  induction n as [|n IH]; intros hi.
  - cbn [down app Nat.add]. f_equal. lia.
  - cbn [down app Nat.add]. f_equal. rewrite <- IH. do 2 f_equal. lia.
Qed.

(** What lies behind a prefix of a run of heights is the rest of the run. *)
Lemma down_suffix (l1 l2 : list Z) :
  forall n hi,
    l1 ++ l2 = down n hi ->
    (length l1 <= n)%nat /\
    l1 = down (length l1) hi /\
    l2 = down (n - length l1) (hi - Z.of_nat (length l1)).
Proof.
  induction l1 as [|x l1 IH]; intros n hi H.
  - cbn [app length] in *. split; [lia|]. split; [reflexivity|].
    rewrite Nat.sub_0_r. subst l2. f_equal. lia.
  - destruct n as [|n]; [discriminate|].
    cbn [app down] in H. injection H as -> H.
    destruct (IH _ _ H) as (Hlen & Hpre & Hsuf).
    cbn [length]. split; [lia|]. split.
    + cbn [down]. f_equal. exact Hpre.
    + rewrite Hsuf. cbn [Nat.sub]. f_equal. lia.
Qed.

Lemma descending_down (n : nat) : forall hi, descending (down n hi).
Proof.
  induction n as [|n IH]; intros hi; [exact I|].
  cbn [down descending]. split; [|apply IH].
  destruct n; cbn [down]; [exact I|lia].
Qed.

Lemma heights_rev_tag (fetched : list Block) :
  forall first,
    heights (rev (tag first fetched))
    = down (length fetched) (first + Z.of_nat (length fetched) - 1).
Proof.
  unfold heights. induction fetched as [|b l IH]; intros first; [reflexivity|].
  cbn [tag rev]. rewrite map_app, IH. cbn [map fst length].
  rewrite down_snoc. f_equal; [f_equal; lia|f_equal; lia].
Qed.

Lemma rev_down (n : nat) :
  forall lo, rev (down n (lo + Z.of_nat n)) = range (lo + 1) (lo + 1 + Z.of_nat n).
Proof.
  induction n as [|n IH]; intros lo.
  - unfold range. replace (Z.to_nat _) with 0%nat by lia. reflexivity.
  - cbn [down rev].
    replace (lo + Z.of_nat (S n) - 1) with (lo + Z.of_nat n) by lia.
    rewrite IH. unfold range.
    replace (Z.to_nat (lo + 1 + Z.of_nat n - (lo + 1))) with n by lia.
    replace (Z.to_nat (lo + 1 + Z.of_nat (S n) - (lo + 1))) with (S n) by lia.
    rewrite seq_S, map_app. cbn [map Nat.add]. do 2 f_equal. lia.
Qed.

Lemma fetch_count_nonneg (self : t) (height : Z) :
  fetched_height self <= height -> 0 <= fetch_count self height.
Proof.
  intros H. unfold fetch_count, prefill_count.
  match goal with |- context [Z.max ?a 10] => pose proof (Z.le_max_r a 10) end.
  lia.
Qed.

Lemma processed_countdown_after_stop (db_height f : Z) (B P : list Z) :
  db_height <= f ->
  B ++ P = countdown f db_height ->
  exists top, db_height <= top /\ P = countdown top db_height.
Proof.
  unfold countdown. intros Hle H.
  destruct (down_suffix _ _ _ _ H) as (Hlen & _ & HP).
  exists (f - Z.of_nat (length B)). split; [lia|].
  rewrite HP. f_equal. lia.
Qed.

Lemma countdown_prepend (db_height f count : Z) (fetched : list Block) (rest : list Z) :
  db_height <= f -> 0 < count ->
  length fetched = Z.to_nat count ->
  rest = countdown f db_height ->
  heights (rev (tag (f + 1) fetched)) ++ rest = countdown (f + count) db_height.
Proof.
  unfold countdown. intros Hle Hpos Hlen ->. rewrite heights_rev_tag, Hlen.
  replace (f + 1 + Z.of_nat (Z.to_nat count) - 1) with (f + count) by lia.
  replace (Z.to_nat (f + count - db_height))
    with (Z.to_nat count + Z.to_nat (f - db_height))%nat by lia.
  rewrite <- down_app.
  replace (f + count - Z.of_nat (Z.to_nat count)) with f by lia.
  reflexivity.
Qed.

Lemma heights_app (l1 l2 : list (Z * Block)) :
  heights (l1 ++ l2) = heights l1 ++ heights l2.
Proof. apply map_app. Qed.

(** Every step of a well-behaved run keeps the order. *)
Lemma step_ordered (db_height : Z) (s s' : system) (ev : event) :
  ordered db_height s -> answers_batch s ev -> tip_not_below s ev ->
  step s ev = Some s' -> ordered db_height s'.
Proof.
  unfold ordered, round_in_order. intros (Hround & Hord) Hans Htip Hstep.
  destruct ev; cbn [step] in Hstep.
  - (* Signal *)
    injection Hstep as <-.
    cbn [cache with_cache prod on_signal stop set_stop set_blocks blocks
         fetched_height log].
    split; [exact Hround|]. split; [reflexivity|].
    destruct (stop (cache s)).
    + exact (proj2 Hord).
    + destruct Hord as (Hle & Hrun).
      exact (processed_countdown_after_stop _ _ _ _ Hle Hrun).
  - (* ProducerWake *)
    destruct (prod s); try discriminate. injection Hstep as <-.
    unfold loop_top. destruct (stop (cache s)) eqn:Hstop.
    + cbn. rewrite Hstop. split; [exact I|exact Hord].
    + case_if; cbn; rewrite Hstop; (split; [exact I|exact Hord]).
  - (* CountReply *)
    destruct (prod s); try discriminate. injection Hstep as <-.
    cbn [tip_not_below] in Htip.
    pose proof (fetch_count_nonneg (set_daemon_height height (cache s)) height
                                   Htip) as Hnn.
    unfold after_count. cbv zeta. cbn [stop set_daemon_height fetched_height].
    destruct (Z.eqb_spec (fetch_count (set_daemon_height height (cache s)) height) 0)
      as [Hz|Hnz]; cbn [orb].
    + cbn. split; [exact I|exact Hord].
    + destruct (stop (cache s)) eqn:Hstop; cbn; rewrite Hstop.
      * split; [exact I|exact Hord].
      * split; [split; [lia|reflexivity]|exact Hord].
  - (* HashesReply *)
    destruct (prod s) eqn:Hp; try discriminate. injection Hstep as <-.
    unfold answers_batch in Hans. rewrite Hp in Hans.
    rewrite RoundProofs.length_range in Hans.
    unfold after_hashes. destruct (stop (cache s)) eqn:Hstop; cbn; rewrite Hstop.
    + split; [exact I|exact Hord].
    + split; [|exact Hord]. destruct Hround as (Hpos & Hfirst).
      split; [exact Hpos|]. split; [exact Hfirst|]. rewrite Hans. f_equal. lia.
  - (* BlocksReply *)
    destruct (prod s) eqn:Hp; try discriminate. injection Hstep as <-.
    unfold answers_batch in Hans. rewrite Hp in Hans.
    destruct Hround as (Hpos & Hfirst & Hlen). rewrite Hlen in Hans.
    unfold after_blocks. cbv zeta. cbn [stop set_fetched_height].
    destruct (stop (cache s)) eqn:Hstop.
    + cbn. rewrite Hstop. split; [exact I|exact Hord].
    + destruct Hord as (Hle & Hrun).
      rewrite SizingProofs.update_sizes_ok.
      2:{ cbn [recent_sizes set_blocks set_fetched_height].
          destruct fetched; [cbn in Hans; lia|].
          destruct (recent_sizes (cache s)); discriminate. }
      cbv zeta. unfold loop_top.
      cbn [cache with_cache stop set_ave_size set_recent_sizes set_blocks
           set_fetched_height].
      rewrite Hstop.
      assert (Hnew : heights (rev (tag first fetched) ++ blocks (cache s))
                     ++ processed (log s)
                     = countdown (fetched_height (cache s) + count) db_height).
      { rewrite heights_app, <- app_assoc, Hfirst.
        apply countdown_prepend; [exact Hle|exact Hpos|exact Hans|exact Hrun]. }
      case_if; cbn; rewrite Hstop; (split; [exact I|]); (split; [lia|exact Hnew]).
  - (* ConsumerWake *)
    assert (Hcase : (cache s' = cache s /\ prod s' = prod s
                     /\ processed (log s') = processed (log s)) \/
                    exists remaining h b,
                      blocks (cache s) = remaining ++ [(h, b)] /\
                      cache s' = set_blocks remaining (cache s) /\
                      prod s' = prod s /\
                      processed (log s') = h :: processed (log s)).
    { destruct (cons s); try discriminate; injection Hstep as <-.
      - left. unfold outer_loop. case_if; repeat split.
      - unfold inner_loop.
        destruct (pop (blocks (cache s))) as [[remaining [h b]]|] eqn:Hpop.
        + right. exists remaining, h, b.
          apply InterleavingProofs.pop_some in Hpop. repeat split. exact Hpop.
        + left. unfold outer_loop. case_if; repeat split.
      - unfold inner_loop.
        destruct (pop (blocks (cache s))) as [[remaining [h b]]|] eqn:Hpop.
        + right. exists remaining, h, b.
          apply InterleavingProofs.pop_some in Hpop. repeat split. exact Hpop.
        + left. unfold outer_loop. case_if; repeat split. }
    destruct Hcase as [(Hc & Hp & Hl)|(remaining & h & b & Hbl & Hc & Hp & Hl)];
      rewrite Hc, Hp, Hl.
    + split; [exact Hround|exact Hord].
    + cbn [stop set_blocks fetched_height blocks].
      split; [exact Hround|].
      destruct (stop (cache s)).
      * destruct Hord as (Hnil & _). rewrite Hnil in Hbl.
        destruct remaining; discriminate.
      * destruct Hord as (Hle & Hrun). split; [exact Hle|].
        rewrite Hbl, heights_app, <- app_assoc in Hrun. exact Hrun.
  - (* Raises *)
    destruct (prod s); try discriminate; injection Hstep as <-;
      cbn [cache with_prod prod log]; (split; [exact I|exact Hord]).
  - (* BlocksNotHex *)
    unfold answers_batch in Hans. destruct (prod s); contradiction.
Qed.

Lemma exec_ordered (db_height : Z) (evs : list event) :
  forall s s',
    ordered db_height s -> well_behaved s evs -> exec s evs = Some s' ->
    ordered db_height s'.
Proof.
  induction evs as [|ev evs IH]; intros s s' Hord Hwb Hexec.
  - cbn [exec] in Hexec. now injection Hexec as <-.
  - cbn [exec well_behaved] in Hexec, Hwb. destruct Hwb as (Hans & Htip & Hwb).
    destruct (step s ev) as [s1|] eqn:Hs; [|discriminate].
    apply (IH s1 s'); [|exact Hwb|exact Hexec].
    eapply step_ordered; eassumption.
Qed.

Lemma start_ordered (db_height : Z) : ordered db_height (start db_height).
Proof.
  unfold ordered, round_in_order, countdown. cbn.
  split; [exact I|]. split; [lia|].
  replace (Z.to_nat (db_height - db_height)) with 0%nat by lia. reflexivity.
Qed.

End OrderProofs.

(** * More on the block cache: what holds of every well-behaved run *)

Module RunProofs.
Import Py BlockCache OrderProofs.

Lemma length_down (n : nat) : forall hi, length (down n hi) = n.
Proof. induction n as [|n IH]; intros hi; cbn [down length]; [|rewrite IH]; reflexivity. Qed.

Lemma ordered_processed (db_height : Z) (s : system) :
  ordered db_height s ->
  exists top, db_height <= top /\ processed (log s) = countdown top db_height.
Proof.
  unfold ordered. intros (_ & Hord). destruct (stop (cache s)).
  - exact (proj2 Hord).
  - destruct Hord as (Hle & Hrun).
    exact (processed_countdown_after_stop _ _ _ _ Hle Hrun).
Qed.

Lemma two_blocks_one_taken_well_behaved :
  well_behaved (start 0) two_blocks_one_taken.
Proof.
  cbn. repeat split; try reflexivity; try lia.
Qed.

(** X7. When the daemon answers every batch in full and never reports a tip
    below [fetched_height], the buffer holds at every point of every
    interleaving, from head to tail, the heights [fetched_height],
    [fetched_height - 1], ... without a gap; and while the stop flag is clear
    the heights processed so far continue that run down to the database
    height plus one. *)
Theorem buffer_in_order (db_height : Z) (evs : list event) (s : system) :
  well_behaved (start db_height) evs ->
  exec (start db_height) evs = Some s ->
  heights (blocks (cache s))
  = down (length (blocks (cache s))) (fetched_height (cache s)) /\
  descending (heights (blocks (cache s))) /\
  (stop (cache s) = false ->
   heights (blocks (cache s)) ++ processed (log s)
   = countdown (fetched_height (cache s)) db_height).
Proof.
  intros Hwb Hexec.
  pose proof (exec_ordered db_height evs _ _ (start_ordered db_height) Hwb Hexec)
    as (_ & Hord).
  assert (Hrun : heights (blocks (cache s))
                 = down (length (blocks (cache s))) (fetched_height (cache s))).
  { destruct (stop (cache s)).
    - destruct Hord as (-> & _). reflexivity.
    - destruct Hord as (_ & Hrun). unfold countdown in Hrun.
      destruct (down_suffix _ _ _ _ Hrun) as (_ & Hpre & _).
      unfold heights in *. now rewrite length_map in Hpre. }
  split; [exact Hrun|]. split; [rewrite Hrun; apply descending_down|].
  intros Hstop. rewrite Hstop in Hord. exact (proj2 Hord).
Qed.

Lemma buffer_in_order_witness :
  exists s,
    exec (start 0) two_blocks_one_taken = Some s /\
    heights (blocks (cache s))
    = down (length (blocks (cache s))) (fetched_height (cache s)) /\
    descending (heights (blocks (cache s))) /\
    (stop (cache s) = false ->
     heights (blocks (cache s)) ++ processed (log s)
     = countdown (fetched_height (cache s)) 0).
Proof.
  eexists. split; [vm_compute; reflexivity|].
  apply (buffer_in_order 0 two_blocks_one_taken);
    [exact two_blocks_one_taken_well_behaved|vm_compute; reflexivity].
Defined.

(** X8. Under the same two conditions on the daemon, the processor is handed
    the blocks of the heights database height plus one, plus two, ... in
    that order, none left out and none twice. *)
Theorem delivery_in_order (db_height : Z) (evs : list event) (s : system) :
  well_behaved (start db_height) evs ->
  exec (start db_height) evs = Some s ->
  rev (processed (log s))
  = range (db_height + 1) (db_height + 1 + len (processed (log s))).
Proof.
  intros Hwb Hexec.
  pose proof (exec_ordered db_height evs _ _ (start_ordered db_height) Hwb Hexec)
    as Hord.
  destruct (ordered_processed _ _ Hord) as (top & Hle & ->).
  unfold countdown, len. rewrite length_down.
  replace top with (db_height + Z.of_nat (Z.to_nat (top - db_height))) at 2
    by lia.
  apply rev_down.
Qed.

Lemma delivery_in_order_witness :
  exists s,
    exec (start 0) two_blocks_one_taken = Some s /\
    rev (processed (log s)) = range (0 + 1) (0 + 1 + len (processed (log s))).
Proof.
  eexists. split; [vm_compute; reflexivity|].
  apply (delivery_in_order 0 two_blocks_one_taken);
    [exact two_blocks_one_taken_well_behaved|vm_compute; reflexivity].
Defined.

(** X9. Under the same two conditions on the daemon, every round in flight
    asks for a positive number of heights starting right above
    [fetched_height]; and when its block batch comes back with one block per
    hash, all of them hex, the code from there to the producer's next
    suspension raises nothing: the size window is not empty when the average
    is taken.  (A call that the producer awaits may raise all the same; that
    is the event [Raises].) *)
Theorem full_batch_never_raises (db_height : Z) (evs : list event) (s : system) :
  well_behaved (start db_height) evs ->
  exec (start db_height) evs = Some s ->
  (forall count first,
      prod s = PAwaitHashes count first ->
      0 < count /\ first = fetched_height (cache s) + 1) /\
  (forall count first hashes,
      prod s = PAwaitBlocks count first hashes ->
      0 < count /\ first = fetched_height (cache s) + 1 /\
      forall fetched,
        length fetched = length hashes ->
        exists s',
          step s (BlocksReply fetched) = Some s' /\
          (forall e, prod s' <> PCrashed e) /\
          (stop (cache s) = false -> recent_sizes (cache s') <> [])).
Proof.
  intros Hwb Hexec.
  pose proof (exec_ordered db_height evs _ _ (start_ordered db_height) Hwb Hexec)
    as (Hround & _).
  unfold round_in_order in Hround. split.
  - intros count first Hp. rewrite Hp in Hround. exact Hround.
  - intros count first hashes Hp. rewrite Hp in Hround.
    destruct Hround as (Hpos & Hfirst & Hlen).
    split; [exact Hpos|]. split; [exact Hfirst|].
    intros fetched Hfull. rewrite Hlen in Hfull.
    exists (after_blocks s count first fetched).
    split; [cbn [step]; now rewrite Hp|].
    unfold after_blocks. cbv zeta. cbn [stop set_fetched_height].
    destruct (stop (cache s)) eqn:Hstop.
    + split; [cbn; discriminate|discriminate].
    + assert (Hne : recent_sizes (cache s)
                    ++ map (fun block => len block) fetched <> []).
      { destruct fetched; [cbn in Hfull; lia|].
        destruct (recent_sizes (cache s)); discriminate. }
      rewrite SizingProofs.update_sizes_ok by exact Hne.
      cbv zeta. unfold loop_top.
      cbn [cache with_cache stop set_ave_size set_recent_sizes set_blocks
           set_fetched_height].
      rewrite Hstop.
      split.
      * case_if; cbn; discriminate.
      * intros _.
        case_if; cbn [cache with_cache with_prod emit recent_sizes
                      set_ave_size set_recent_sizes];
          apply SizingProofs.lastn_nonempty, Hne.
Qed.

Lemma two_hashes_back_well_behaved : well_behaved (start 0) two_hashes_back.
Proof. cbn. repeat split; try reflexivity; try lia. Qed.

Lemma full_batch_never_raises_witness :
  exists s s',
    exec (start 0) two_hashes_back = Some s /\
    prod s = PAwaitBlocks 2 1 ["h1"; "h2"] /\
    step s (BlocksReply [zeros 1; zeros 2]) = Some s' /\
    (forall e, prod s' <> PCrashed e) /\
    (stop (cache s) = false -> recent_sizes (cache s') <> []).
Proof.
  assert (Hexec : exec (start 0) two_hashes_back
                  = Some (mkSystem (mk false 10 2 0 [] [] 0)
                                   (PAwaitBlocks 2 1 ["h1"; "h2"]) CReady
                                   [GetBlock ["h1"; "h2"]; GetBlockHash [1; 2];
                                    GetBlockCount]))
    by reflexivity.
  destruct (full_batch_never_raises 0 two_hashes_back _
              two_hashes_back_well_behaved Hexec) as (_ & Hblocks).
  destruct (Hblocks 2 1 ["h1"; "h2"] eq_refl) as (_ & _ & Hfull).
  destruct (Hfull [zeros 1; zeros 2] eq_refl) as (s' & Hstep & Hno & Hwin).
  eexists. exists s'. split; [exact Hexec|]. split; [reflexivity|].
  split; [exact Hstep|]. split; [exact Hno|exact Hwin].
Defined.

End RunProofs.

(** * More on the block cache: sizing and stopping in every run *)

Module ReachProofs.
Import Py BlockCache.

Lemma in_range (a b h : Z) : In h (range a b) -> a <= h < b.
Proof.
  unfold range. rewrite in_map_iff. intros (i & <- & Hi).
  apply in_seq in Hi. lia.
Qed.

(** X6. The count of a round is at most 4000 and at most the distance to the
    daemon's tip; it is zero exactly when the tip equals [fetched_height];
    and every height a round asks for lies above [fetched_height], at most
    4000 above it, and not above the tip. *)
Theorem fetch_count_bounds (self : t) (height : Z) :
  fetch_count self height <= 4000 /\
  fetch_count self height <= height - fetched_height self /\
  (fetch_count self height = 0 <-> height = fetched_height self) /\
  (forall h,
      In h (range (fetched_height self + 1)
                  (fetched_height self + 1 + fetch_count self height)) ->
      fetched_height self < h <= height /\ h <= fetched_height self + 4000).
Proof.
  assert (Hten : 10 <= prefill_count self (limit_bytes self))
    by (unfold prefill_count; apply Z.le_max_r).
  unfold fetch_count. split; [lia|]. split; [lia|]. split; [lia|].
  intros h Hin. apply in_range in Hin. lia.
Qed.

Lemma sum_nonneg (l : list Z) : Forall (fun x => 0 <= x) l -> 0 <= sum l.
Proof.
  induction 1 as [|x l Hx _ IH]; [cbn; lia|].
  rewrite SizingProofs.sum_cons. lia.
Qed.

Lemma Forall_lastn {A} (P : A -> Prop) (n : nat) (l : list A) :
  Forall P l -> Forall P (lastn n l).
Proof.
  unfold lastn. intros H.
  rewrite <- (firstn_skipn (length l - n) l) in H.
  apply Forall_app in H. exact (proj2 H).
Qed.

Lemma lens_nonneg (fetched : list Block) :
  Forall (fun size => 0 <= size) (map (fun block => len block) fetched).
Proof.
  induction fetched as [|b l IH]; constructor;
    [apply SizingProofs.len_nonneg|exact IH].
Qed.

(** The bookkeeping of a round keeps window and average in agreement, also
    when it raises. *)
Lemma update_sizes_consistent (self : t) (fetched : list Block) :
  sizes_consistent self -> sizes_consistent (fst (update_sizes self fetched)).
Proof.
  intros (Hnn & Have & Hcase).
  destruct (recent_sizes self ++ map (fun block => len block) fetched)
    as [|x w] eqn:Hw.
  - apply app_eq_nil in Hw. destruct Hw as (Hr & Hf).
    destruct fetched; [clear Hf|discriminate Hf].
    rewrite (SizingProofs.update_sizes_empty self Hr). cbn [fst].
    unfold sizes_consistent. cbn [recent_sizes ave_size set_recent_sizes].
    split; [constructor|]. split; [exact Have|]. left. split; [reflexivity|].
    destruct Hcase as [(_ & H0)|(Hne & _)]; [exact H0|congruence].
  - destruct (SizingProofs.update_sizes_tracked self fetched) as (c & Hc & Htr & Hwin).
    { rewrite Hw. discriminate. }
    rewrite Hc. cbn [fst]. unfold sizes_consistent.
    assert (Hall : Forall (fun size => 0 <= size) (recent_sizes c)).
    { rewrite Hwin. apply Forall_lastn, Forall_app. split; [exact Hnn|].
      apply lens_nonneg. }
    split; [exact Hall|]. split; [|right; exact Htr].
    destruct Htr as (Hne & _ & ->). apply Z.div_pos; [apply sum_nonneg, Hall|].
    unfold len. destruct (recent_sizes c); [congruence|cbn [length]; lia].
Qed.

Lemma sizes_consistent_same (c c' : t) :
  recent_sizes c' = recent_sizes c -> ave_size c' = ave_size c ->
  sizes_consistent c -> sizes_consistent c'.
Proof. unfold sizes_consistent, tracked. intros -> ->. exact (fun H => H). Qed.

Lemma step_sizes_consistent (s s' : system) (ev : event) :
  sizes_consistent (cache s) -> step s ev = Some s' ->
  sizes_consistent (cache s').
Proof.
  intros Hc Hstep. destruct ev; cbn [step] in Hstep; case_prod s Hstep Hp;
    try injection Hstep as <-.
  - revert Hc. apply sizes_consistent_same; reflexivity.
  - now rewrite RoundProofs.loop_top_cache.
  - rewrite RoundProofs.after_count_cache. revert Hc.
    apply sizes_consistent_same; reflexivity.
  - now rewrite RoundProofs.after_hashes_cache.
  - unfold after_blocks. cbv zeta. case_if.
    + revert Hc. apply sizes_consistent_same; reflexivity.
    + match goal with
      | |- context [update_sizes ?c ?f] =>
          assert (Hu : sizes_consistent (fst (update_sizes c f)))
            by (apply update_sizes_consistent; revert Hc;
                apply sizes_consistent_same; reflexivity);
          destruct (update_sizes c f) as [c' [e|]]
      end; cbn [fst] in Hu;
        [exact Hu|rewrite RoundProofs.loop_top_cache; exact Hu].
  - destruct (cons s); try discriminate; injection Hstep as <-;
      rewrite ?RoundProofs.outer_loop_cache, ?RoundProofs.inner_loop_cache;
      try exact Hc;
      destruct (pop (blocks (cache s))) as [[remaining hb]|]; try exact Hc;
      revert Hc; apply sizes_consistent_same; reflexivity.
  - exact Hc.
  - exact Hc.
  - exact Hc.
  - unfold after_bad_blocks. cbv zeta.
    case_if; revert Hc; apply sizes_consistent_same; reflexivity.
Qed.

(** X10. In every reachable state the size window holds at most 50 sizes, none
    of them negative; the average is not negative; it is zero while the
    window is empty and otherwise the floor of the window's mean. *)
Theorem sizes_stay_consistent (db_height : Z) (evs : list event) (s : system) :
  exec (start db_height) evs = Some s ->
  (length (recent_sizes (cache s)) <= 50)%nat /\
  Forall (fun size => 0 <= size) (recent_sizes (cache s)) /\
  0 <= ave_size (cache s) /\
  ave_size (cache s)
  = match recent_sizes (cache s) with
    | [] => 0
    | _ => sum (recent_sizes (cache s)) / len (recent_sizes (cache s))
    end.
Proof.
  intros Hexec.
  assert (H : sizes_consistent (cache s)).
  { apply (InterleavingProofs.exec_invariant
             (fun _ s0 => sizes_consistent (cache s0))
             (fun _ s0 ev s1 => step_sizes_consistent s0 s1 ev)
             evs [] (start db_height) s); [|exact Hexec].
    split; [constructor|]. split; [cbn; lia|]. left. split; reflexivity. }
  destruct H as (Hnn & Have & [(Hnil & H0)|(Hne & Hlen & Hmean)]).
  - rewrite Hnil. cbn [length]. repeat split; auto; lia.
  - repeat split; auto. destruct (recent_sizes (cache s)); [congruence|exact Hmean].
Qed.

Lemma sizes_stay_consistent_witness :
  (length (recent_sizes (cache one_block_buffered)) <= 50)%nat /\
  Forall (fun size => 0 <= size) (recent_sizes (cache one_block_buffered)) /\
  0 <= ave_size (cache one_block_buffered) /\
  ave_size (cache one_block_buffered)
  = match recent_sizes (cache one_block_buffered) with
    | [] => 0
    | _ => sum (recent_sizes (cache one_block_buffered))
           / len (recent_sizes (cache one_block_buffered))
    end.
Proof.
  exact (sizes_stay_consistent 0 one_block_round one_block_buffered
                               RoundProofs.one_block_round_exec).
Defined.

(** A step from a stopped state with an empty buffer leaves it stopped and
    empty and hands nothing to the processor. *)
Lemma step_after_stop (s s' : system) (ev : event) :
  stop (cache s) = true -> blocks (cache s) = [] -> step s ev = Some s' ->
  stop (cache s') = true /\ blocks (cache s') = [] /\
  processed (log s') = processed (log s).
Proof.
  intros Hstop Hnil Hstep. destruct ev; cbn [step] in Hstep;
    case_prod s Hstep Hp; try injection Hstep as <-.
  - cbn. auto.
  - unfold loop_top. rewrite Hstop. cbn. auto.
  - unfold after_count. cbv zeta. cbn [stop set_daemon_height].
    rewrite Hstop, orb_true_r. cbn. auto.
  - unfold after_hashes. rewrite Hstop. cbn. auto.
  - unfold after_blocks. cbv zeta. cbn [stop set_fetched_height].
    rewrite Hstop. cbn. auto.
  - assert (Hs' : s' = outer_loop s).
    { destruct (cons s); try discriminate; injection Hstep as <-;
        try reflexivity; unfold inner_loop; now rewrite Hnil. }
    subst s'. unfold outer_loop. rewrite Hstop. cbn. auto.
  - cbn. auto.
  - cbn. auto.
  - cbn. auto.
  - unfold after_bad_blocks. cbv zeta. cbn [stop set_fetched_height].
    rewrite Hstop. cbn. auto.
Qed.

(** X11. Once the stop flag is set it stays set, the buffer stays empty, and no
    further block is handed to the processor, whatever comes back from the
    daemon afterwards. *)
Theorem nothing_processed_after_stop (db_height : Z) (evs evs' : list event)
        (s s' : system) :
  exec (start db_height) evs = Some s ->
  stop (cache s) = true ->
  exec s evs' = Some s' ->
  stop (cache s') = true /\ blocks (cache s') = [] /\
  processed (log s') = processed (log s).
Proof.
  intros Hexec Hstop.
  pose proof (InterleavingProofs.reachable_shut_down_safely _ _ _ Hexec)
    as (Hnil & _). specialize (Hnil Hstop). clear Hexec.
  revert s Hstop Hnil. induction evs' as [|ev evs' IH]; intros s Hstop Hnil Hrun.
  - cbn [exec] in Hrun. injection Hrun as <-. auto.
  - cbn [exec] in Hrun. destruct (step s ev) as [s1|] eqn:Hs; [|discriminate].
    destruct (step_after_stop _ _ _ Hstop Hnil Hs) as (Hstop1 & Hnil1 & Hlog1).
    destruct (IH s1 Hstop1 Hnil1 Hrun) as (H1 & H2 & H3).
    repeat split; auto. congruence.
Qed.

Lemma nothing_processed_after_stop_witness :
  exists s s',
    exec (start 0) [ProducerWake; CountReply 2; HashesReply ["h1"; "h2"]; Signal]
    = Some s /\
    exec s [BlocksReply [zeros 1; zeros 2]; ConsumerWake] = Some s' /\
    stop (cache s') = true /\ blocks (cache s') = [] /\
    processed (log s') = processed (log s).
Proof.
  eexists. eexists. split; [vm_compute; reflexivity|].
  split; [vm_compute; reflexivity|].
  apply (nothing_processed_after_stop
           0 [ProducerWake; CountReply 2; HashesReply ["h1"; "h2"]; Signal]
           [BlocksReply [zeros 1; zeros 2]; ConsumerWake]);
    [vm_compute; reflexivity|reflexivity|vm_compute; reflexivity].
Defined.

End ReachProofs.

(** * More on the block cache: the consumer on its own *)

Module DrainProofs.
Import Py BlockCache.

Lemma pop_snoc {A} (l : list A) (x : A) : pop (l ++ [x]) = Some (l, x).
Proof.
  unfold pop. rewrite rev_app_distr. cbn [rev app]. now rewrite rev_involutive.
Qed.

Lemma drain_from (buffer : list (Z * Block)) :
  forall s,
    asleep (cons s) -> blocks (cache s) = buffer ->
    exists s',
      exec s (repeat ConsumerWake (length buffer)) = Some s' /\
      blocks (cache s') = [] /\
      log s' = map hand_over buffer ++ log s /\
      asleep (cons s') /\ prod s' = prod s /\
      fetched_height (cache s') = fetched_height (cache s).
Proof.
  induction buffer as [|[h b] buffer IH] using rev_ind; intros s Hcons Hbl.
  - exists s. cbn [length repeat exec map app].
    repeat split; [exact Hbl|exact Hcons].
  - rewrite length_app, Nat.add_comm. cbn [length Nat.add repeat exec].
    assert (Hstep : step s ConsumerWake
                    = Some (with_cons CSleep0
                              (emit (ProcessBlock h b)
                                 (with_cache (set_blocks buffer (cache s)) s)))).
    { cbn [step]. unfold inner_loop. rewrite Hbl, pop_snoc.
      destruct (cons s); try contradiction; reflexivity. }
    rewrite Hstep.
    destruct (IH (with_cons CSleep0
                    (emit (ProcessBlock h b)
                       (with_cache (set_blocks buffer (cache s)) s))))
      as (s' & Hrun & Hnil & Hlog & Hk & Hp & Hf); [exact I|reflexivity|].
    exists s'. split; [exact Hrun|]. split; [exact Hnil|].
    split; [|split; [exact Hk|split; [exact Hp|exact Hf]]].
    rewrite Hlog, map_app, <- app_assoc. reflexivity.
Qed.

(** X12. Resumed as many times as the buffer has blocks, with nothing else
    running in between, the consumer empties the buffer and hands the blocks
    to the processor from the tail of the buffer to its head; it does not
    look at the stop flag while the buffer has blocks. *)
Theorem consumer_drains_tail_first (s : system) :
  asleep (cons s) ->
  exists s',
    exec s (repeat ConsumerWake (length (blocks (cache s)))) = Some s' /\
    blocks (cache s') = [] /\
    log s' = map hand_over (blocks (cache s)) ++ log s /\
    asleep (cons s').
Proof.
  intros Hcons.
  destruct (drain_from (blocks (cache s)) s Hcons eq_refl)
    as (s' & Hrun & Hnil & Hlog & Hk & _).
  exists s'. auto.
Qed.

Lemma consumer_drains_tail_first_witness :
  exists s',
    exec (mkSystem (mk false 10 2 2 [(2, zeros 2); (1, zeros 1)] [1; 2] 1)
                   PAwaitCount CSleep1 [])
         (repeat ConsumerWake 2) = Some s' /\
    blocks (cache s') = [] /\
    log s' = [ProcessBlock 2 (zeros 2); ProcessBlock 1 (zeros 1)] /\
    asleep (cons s').
Proof.
  apply (consumer_drains_tail_first
           (mkSystem (mk false 10 2 2 [(2, zeros 2); (1, zeros 1)] [1; 2] 1)
                     PAwaitCount CSleep1 [])).
  exact I.
Defined.

End DrainProofs.
